(** * Error-Handling Builder: the line transforms and the stage progression

    A shallow embedding of the two engines of the repository:
    - [Strict]  (src/App.jsx): actions are dropped on a stage, the record of
      applied actions is a map from a timestamp to the chosen action, and
      [scoreStage] asks for every expected action;
    - [Lenient] (the per-line engine): actions are dropped on a line of the
      stage's snippet, [applyThrow], [applyCatch] and [applyOptionalOf]
      rewrite the lines, and [canAdvance] asks for one applied action.

    A JavaScript string is the list of its UTF-16 code units, a JavaScript
    array a list, a JavaScript object used as a dictionary a [gmap].  The
    regular expressions of the source are kept as syntax trees and run by a
    backtracking matcher with the greedy priorities of the language. *)

From Stdlib Require Import String Ascii NArith ZArith Lia.
From stdpp Require Import base option list strings gmap.

Local Open Scope N_scope.

(** ** JavaScript strings *)

(** A string is a sequence of 16-bit code units. *)
Abbreviation jsstring := (list N).

(** An ASCII literal of the source as code units. *)
Definition lit (s : string) : jsstring :=
  map N_of_ascii (list_ascii_of_string s).

(** The double quote, which the literals below splice in. *)
Definition dq : jsstring := [34].

(** White space and line terminators: the set matched by the class [\s] and
    stripped by [String.prototype.trim]. *)
Definition is_space (c : N) : bool :=
  (c =? 9) || (c =? 10) || (c =? 11) || (c =? 12) || (c =? 13) || (c =? 32)
  || (c =? 160) || (c =? 5760) || ((8192 <=? c) && (c <=? 8202))
  || (c =? 8232) || (c =? 8233) || (c =? 8239) || (c =? 8287)
  || (c =? 12288) || (c =? 65279).

(** Line terminators, which the class [.] excludes. *)
Definition is_line_terminator (c : N) : bool :=
  (c =? 10) || (c =? 13) || (c =? 8232) || (c =? 8233).

Definition is_dot (c : N) : bool := negb (is_line_terminator c).

(** [s.startsWith(p)] *)
Fixpoint startsWith (p s : jsstring) : bool :=
  match p, s with
  | [], _ => true
  | a :: p', b :: s' => (a =? b) && startsWith p' s'
  | _ :: _, [] => false
  end.

(** Leading white space of a string and what follows it. *)
Fixpoint take_ws (s : jsstring) : jsstring :=
  match s with
  | c :: s' => if is_space c then c :: take_ws s' else []
  | [] => []
  end.

Fixpoint skip_ws (s : jsstring) : jsstring :=
  match s with
  | c :: s' => if is_space c then skip_ws s' else s
  | [] => []
  end.

(** [s.trim()] *)
Definition trim (s : jsstring) : jsstring :=
  rev (skip_ws (rev (skip_ws s))).

(** [s.replace(/c/g, by)] for a single character [c]. *)
Definition replaceAllChar (c : N) (by_ : jsstring) (s : jsstring) : jsstring :=
  flat_map (fun x => if x =? c then by_ else [x]) s.

(** [s.replace(p, by)] for a string [p]: the first occurrence is replaced. *)
Fixpoint replaceString (p by_ s : jsstring) : jsstring :=
  if startsWith p s then by_ ++ drop (length p) s
  else
    match s with
    | [] => []
    | c :: s' => c :: replaceString p by_ s'
    end.

(** Decimal digits of a non-negative integer, as [Number.prototype.toString]
    prints it. *)
Fixpoint decimal_fuel (fuel : nat) (n : N) (acc : jsstring) : jsstring :=
  match fuel with
  | O => acc
  | S fuel' =>
      let acc' := (48 + n mod 10) :: acc in
      if n <? 10 then acc' else decimal_fuel fuel' (n / 10) acc'
  end.

Definition decimal (n : nat) : jsstring :=
  decimal_fuel (S n) (N.of_nat n) [].

(** ** Regular expressions *)

Module Regex.

Inductive cclass := CSpace | CDot.

Definition in_class (c : cclass) (x : N) : bool :=
  match c with
  | CSpace => is_space x
  | CDot => is_dot x
  end.

(** The fragment of the regular expression syntax the source uses. *)
Inductive regex :=
| RLit (l : jsstring)        (* a run of literal characters *)
| RStar (c : cclass)         (* c*, greedy *)
| RPlus (c : cclass)         (* c+, greedy *)
| ROpt (x : N)               (* x?, greedy *)
| RGroup (r : regex)         (* ( r ), the capture group $1 *)
| RSeq (r1 r2 : regex)       (* r1 r2 *)
| RBol.                      (* ^ *)

(** A matcher state: whether the position is the start of the input, the
    input that is left, and the text captured by the group, if any. *)
Record mstate := MS {
  m_bol : bool;
  m_rest : jsstring;
  m_cap : option jsstring
}.

Definition cont := mstate -> option mstate.

(** Greedy iteration of a character class: the longest run first, then
    shorter ones as the continuation fails. *)
Fixpoint star (c : cclass) (b : bool) (s : jsstring) (cap : option jsstring)
    (k : cont) {struct s} : option mstate :=
  match s with
  | x :: s' =>
      if in_class c x then
        match star c false s' cap k with
        | Some r => Some r
        | None => k (MS b s cap)
        end
      else k (MS b s cap)
  | [] => k (MS b [] cap)
  end.

Fixpoint rmatch (r : regex) (st : mstate) (k : cont) : option mstate :=
  match r with
  | RLit l =>
      if startsWith l (m_rest st) then
        k (MS (m_bol st && bool_decide (l = [])) (drop (length l) (m_rest st))
              (m_cap st))
      else None
  | RStar c => star c (m_bol st) (m_rest st) (m_cap st) k
  | RPlus c =>
      match m_rest st with
      | x :: s' => if in_class c x then star c false s' (m_cap st) k else None
      | [] => None
      end
  | ROpt x =>
      match m_rest st with
      | y :: s' =>
          if y =? x then
            match k (MS false s' (m_cap st)) with
            | Some r => Some r
            | None => k st
            end
          else k st
      | [] => k st
      end
  | RGroup r' =>
      rmatch r' st (fun st' =>
        k (MS (m_bol st') (m_rest st')
              (Some (take (length (m_rest st) - length (m_rest st'))
                          (m_rest st)))))
  | RSeq r1 r2 => rmatch r1 st (fun st' => rmatch r2 st' k)
  | RBol => if m_bol st then k st else None
  end.

(** The result of [exec]: where the match starts, what follows it, and the
    capture. *)
Record mresult := MR {
  r_index : nat;
  r_rest : jsstring;
  r_cap : option jsstring
}.

(** A match that starts at the current position. *)
Definition match_here (r : regex) (b : bool) (s : jsstring)
    : option (jsstring * option jsstring) :=
  match rmatch r (MS b s None) Some with
  | Some st => Some (m_rest st, m_cap st)
  | None => None
  end.

(** The leftmost match, from position [i] of the input on. *)
Fixpoint search (r : regex) (i : nat) (s : jsstring) : option mresult :=
  match match_here r (bool_decide (i = O)) s with
  | Some (rest, cap) => Some (MR i rest cap)
  | None =>
      match s with
      | [] => None
      | _ :: s' => search r (S i) s'
      end
  end.

(** [re.exec(s)] for a regular expression without flags. *)
Definition exec (r : regex) (s : jsstring) : option mresult := search r O s.

(** [re.test(s)] *)
Definition test (r : regex) (s : jsstring) : bool :=
  match exec r s with Some _ => true | None => false end.

(** The text of a match, [m[0]]. *)
Definition matched (s : jsstring) (m : mresult) : jsstring :=
  take (length s - r_index m - length (r_rest m)) (drop (r_index m) s).

(** [s.match(re)[0]], when there is a match. *)
Definition str_match (r : regex) (s : jsstring) : option jsstring :=
  matched s <$> exec r s.

(** A replacement string: literal text and references to the group. *)
Inductive piece := PText (l : jsstring) | PGroup1.

Definition expand (cap : option jsstring) (p : piece) : jsstring :=
  match p with
  | PText l => l
  | PGroup1 => default [] cap
  end.

(** [s.replace(re, by)] for a regular expression without the global flag:
    the leftmost match is replaced, the rest is kept. *)
Definition replace (r : regex) (by_ : list piece) (s : jsstring) : jsstring :=
  match exec r s with
  | Some m =>
      take (r_index m) s ++ flat_map (expand (r_cap m)) by_ ++ r_rest m
  | None => s
  end.

End Regex.

Import Regex.

(** ** The stage registry

    The two engines hold the same five stages; only the name of the field that
    lists the actions differs: [expectedKeys] in the strict engine, which
    reads it, and [recommended] in the lenient one, which only shows it. *)

Record Stage := {
  key : jsstring;
  title : jsstring;
  goal : jsstring;
  snippet : list jsstring;
  expectedKeys : list jsstring;
  hint : jsstring
}.

Definition recommended : Stage -> list jsstring := expectedKeys.

(** Characters of the titles and hints outside ASCII. *)
Definition em_dash : jsstring := [8212].
Definition right_quote : jsstring := [8217].
Definition party_popper : jsstring := [55356; 57225].

Definition stage_kafka : Stage := {|
  key := lit "kafka-loop";
  title := lit "Stage 1 " ++ em_dash ++ lit " Streaming loop";
  goal := lit "Process many messages; transient upstream failure should not crash the whole consumer.";
  snippet := [
    lit "for (Record record : stream) {";
    lit "    processMessage(record); // may call networkCall()";
    lit "}" ];
  expectedKeys := [lit "catch"; lit "throw"];
  hint := lit "Catch locally to decide skip/retry; throw (translated) so the boundary can act (DLQ/retry)."
|}.

Definition stage_repo : Stage := {|
  key := lit "repo-optional";
  title := lit "Stage 2 " ++ em_dash ++ lit " Repository lookup";
  goal := lit "Find user by email. Absence is normal. DB failures are exceptional.";
  snippet := [
    lit "public Optional<User> findByEmail(String email) {";
    lit "    // query DB...";
    lit "    return Optional.empty(); // sometimes; distinguish from DB failure";
    lit "}" ];
  expectedKeys := [lit "opt"; lit "throw"];
  hint := lit "Use Optional for normal 'not found'; throw on DB/driver errors to signal failure."
|}.

Definition stage_controller : Stage := {|
  key := lit "controller-boundary";
  title := lit "Stage 3 " ++ em_dash ++ lit " HTTP boundary";
  goal := lit "Translate domain exceptions to proper HTTP status codes.";
  snippet := [
    lit "@GetMapping(" ++ dq ++ lit "/orders/{id}" ++ dq ++ lit ")";
    lit "public ResponseEntity<?> get(@PathVariable String id) {";
    lit "    return ResponseEntity.ok(service.fetch(id));";
    lit "}" ];
  expectedKeys := [lit "catch"; lit "throw"];
  hint := lit "Let exceptions bubble; catch at @ControllerAdvice and map to 404/409/500."
|}.

Definition stage_batch : Stage := {|
  key := lit "batch-skip";
  title := lit "Stage 4 " ++ em_dash ++ lit " Batch job (1M rows)";
  goal := lit "Skip bad records (ParseException) and continue; fail fast on corruption.";
  snippet := [
    lit "for (String line : lines) {";
    lit "    Transaction t = parse(line);";
    lit "    writer.write(t);";
    lit "}" ];
  expectedKeys := [lit "catch"];
  hint := lit "Use a skip policy / per-record catch; only throw on critical corruption."
|}.

Definition stage_upstream : Stage := {|
  key := lit "upstream-503";
  title := lit "Stage 5 " ++ em_dash ++ lit " Upstream 503";
  goal := lit "Treat 503 as data; retry/backoff; signal failure upward if exhausted.";
  snippet := [
    lit "Response r = http.get(" ++ dq ++ lit "/partner" ++ dq ++ lit ");";
    lit "if (r.status() == 200) return r.body();";
    lit "return null; // currently hiding errors";
    lit "" ];
  expectedKeys := [lit "catch"; lit "throw"];
  hint := lit "Don" ++ right_quote ++ lit "t return null on outage; retry then throw UpstreamUnavailableException."
|}.

Definition STAGES : list Stage :=
  [stage_kafka; stage_repo; stage_controller; stage_batch; stage_upstream].

(** ** The lenient engine: actions dropped on lines *)

Module Lenient.

(** The identifiers of ACTIONS. *)
Definition id_throw : jsstring := lit "throw".
Definition id_catch : jsstring := lit "catch".
Definition id_opt : jsstring := lit "opt".

(** [<span contenteditable="true" class="ce">body</span>] *)
Definition editable (body : jsstring) : jsstring :=
  lit "<span contenteditable=" ++ dq ++ lit "true" ++ dq ++ lit " class="
    ++ dq ++ lit "ce" ++ dq ++ lit ">" ++ body ++ lit "</span>".

(** [esc]: [&] becomes [&amp;], then [<] becomes [&lt;]. *)
Definition esc (s : jsstring) : jsstring :=
  replaceAllChar 60 (lit "&lt;") (replaceAllChar 38 (lit "&amp;") s).

(** [/return\s+null;?/] *)
Definition re_return_null : regex :=
  RSeq (RLit (lit "return"))
    (RSeq (RPlus CSpace) (RSeq (RLit (lit "null")) (ROpt 59))).

(** [/^\s*/] *)
Definition re_indent : regex := RSeq RBol (RStar CSpace).

(** [/return\s+Optional\.empty\(\)/] *)
Definition re_return_empty : regex :=
  RSeq (RLit (lit "return"))
    (RSeq (RPlus CSpace) (RLit (lit "Optional.empty()"))).

(** [/return\s+.+;/] *)
Definition re_return_value : regex :=
  RSeq (RLit (lit "return"))
    (RSeq (RPlus CSpace) (RSeq (RPlus CDot) (RLit (lit ";")))).

(** [/Optional\./] *)
Definition re_optional : regex := RLit (lit "Optional.").

(** [/return\s+(.+);/] *)
Definition re_return_group : regex :=
  RSeq (RLit (lit "return"))
    (RSeq (RPlus CSpace) (RSeq (RGroup (RPlus CDot)) (RLit (lit ";")))).

(** [(line.match(/^\s*/) || [""])[0]] *)
Definition indent_of (line : jsstring) : jsstring :=
  default [] (str_match re_indent line).

Definition throw_upstream : jsstring :=
  lit "throw new " ++ editable (lit "UpstreamUnavailableException") ++ lit "();".

Definition throw_custom : jsstring :=
  lit "throw new " ++ editable (lit "CustomDomainException") ++ lit "();".

Definition optional_sample : jsstring :=
  lit "return Optional.of(" ++ editable (lit "value") ++ lit ");".

(** [lines.splice(i, deleteCount, ...items)] for [i] within the array. *)
Definition splice (lines : list jsstring) (i deleteCount : nat)
    (items : list jsstring) : list jsstring :=
  take i lines ++ items ++ drop (i + deleteCount) lines.

(** The transforms mutate the array they are given; the caller passes a
    fresh copy, so the array is threaded through as a value.  [None] is the
    TypeError of [line.match] on the [undefined] that an index outside the
    array reads; nothing has been written when it is thrown. *)

Definition applyThrow (lines : list jsstring) (lineIdx : nat)
    : option (list jsstring) :=
  match lines !! lineIdx with
  | None => None
  | Some line =>
      if test re_return_null line then
        Some (<[lineIdx := replace re_return_null [PText throw_upstream] line]> lines)
      else
        let indent := indent_of line ++ lit "    " in
        Some (splice lines (lineIdx + 1) 0 [indent ++ throw_custom])
  end.

Definition applyCatch (lines : list jsstring) (lineIdx : nat)
    : option (list jsstring) :=
  match lines !! lineIdx with
  | None => None
  | Some orig =>
      let indent := indent_of orig in
      let innerIndent := indent ++ lit "    " in
      let wrapped := [
        indent ++ lit "try {";
        innerIndent ++ esc (trim orig);
        indent ++ lit "} catch (" ++ editable (lit "Exception") ++ lit " e) {";
        innerIndent ++ lit "// " ++ editable (lit "decide: skip/retry/DLQ/translate");
        indent ++ lit "}" ] in
      Some (splice lines lineIdx 1 wrapped)
  end.

Definition applyOptionalOf (lines : list jsstring) (lineIdx : nat)
    : option (list jsstring) :=
  match lines !! lineIdx with
  | None => None
  | Some line =>
      (* the test for [return Optional.empty()] guards an empty block *)
      let _ := test re_return_empty line in
      if test re_return_value line && negb (test re_optional line) then
        Some (<[lineIdx := replace re_return_group
                 [PText (lit "return Optional.of("); PGroup1; PText (lit ");")]
                 line]> lines)
      else
        let indent := indent_of line ++ lit "    " in
        Some (splice lines (lineIdx + 1) 0 [indent ++ optional_sample])
  end.

(** [canAdvance] *)
Definition canAdvance (appliedCount : N) : bool := 0 <? appliedCount.

(** The state of the component.  A count is a JavaScript number; it is
    incremented by one per action, which is exact below 2^53. *)
Record state := State {
  stageIdx : nat;
  linesByStage : gmap jsstring (list jsstring);
  appliedCounts : gmap jsstring N;
  log : list jsstring
}.

(** [Object.fromEntries]: a later entry replaces an earlier one. *)
Definition fromEntries {V} (l : list (jsstring * V)) : gmap jsstring V :=
  foldl (fun m kv => <[kv.1 := kv.2]> m) ∅ l.

Definition initial_lines : gmap jsstring (list jsstring) :=
  fromEntries (map (fun s => (key s, snippet s)) STAGES).

Definition init : state := State 0 initial_lines ∅ [].

Definition completion_message : jsstring :=
  party_popper ++
  lit " Reached the end. Open the 'Best Practice Outcome' in the README or compare with your code changes.".

(** The handlers.  [None] is an exception thrown before any setter ran:
    the state stays as it was. *)

Definition applyActionAt (actionId : jsstring) (idx : nat) (st : state)
    : option state :=
  stage ← STAGES !! stageIdx st;
  lines ← linesByStage st !! key stage;
  working ←
    (if bool_decide (actionId = id_throw) then applyThrow lines idx
     else if bool_decide (actionId = id_catch) then applyCatch lines idx
     else if bool_decide (actionId = id_opt) then applyOptionalOf lines idx
     else Some lines);
  let count := default 0 (appliedCounts st !! key stage) + 1 in
  Some (State (stageIdx st)
          (<[key stage := working]> (linesByStage st))
          (<[key stage := count]> (appliedCounts st))
          (log st ++ [lit "Applied " ++ actionId ++ lit " to line "
                        ++ decimal (idx + 1) ++ lit " in " ++ title stage])).

Definition next (st : state) : option state :=
  stage ← STAGES !! stageIdx st;
  let count := default 0 (appliedCounts st !! key stage) in
  if negb (canAdvance count) then
    Some (State (stageIdx st) (linesByStage st) (appliedCounts st)
            (log st ++ [lit "Hint for " ++ title stage ++ lit ": " ++ hint stage]))
  else if bool_decide (stageIdx st < length STAGES - 1)%nat then
    Some (State (stageIdx st + 1) (linesByStage st) (appliedCounts st) (log st))
  else
    Some (State (stageIdx st) (linesByStage st) (appliedCounts st)
            (log st ++ [completion_message])).

Definition resetStage (st : state) : option state :=
  stage ← STAGES !! stageIdx st;
  Some (State (stageIdx st)
          (<[key stage := snippet stage]> (linesByStage st))
          (<[key stage := 0]> (appliedCounts st))
          (log st ++ [lit "Reset " ++ title stage])).

Definition resetAll (st : state) : option state :=
  Some (State 0 initial_lines ∅ []).

(** What the user can do. *)
Inductive event :=
| Dropped (actionId : jsstring) (idx : nat)
| NextClicked
| ResetStageClicked
| RestartClicked.

Definition handle (e : event) (st : state) : option state :=
  match e with
  | Dropped a i => applyActionAt a i st
  | NextClicked => next st
  | ResetStageClicked => resetStage st
  | RestartClicked => resetAll st
  end.

(** One event: a handler that throws leaves the state as it was. *)
Definition step (st : state) (e : event) : state := default st (handle e st).

Definition run (st : state) (es : list event) : state := foldl step st es.

Definition reachable (st : state) : Prop := exists es, st = run init es.

End Lenient.

(** ** The strict engine: actions dropped on the stage *)

Module Strict.

Definition id_throw : jsstring := lit "throw".
Definition id_catch : jsstring := lit "catch".
Definition id_opt : jsstring := lit "opt".

(** The state of the component.  The record of a stage is an object whose
    keys are the values of [Date.now()] at the drops. *)
Record state := State {
  stageIdx : nat;
  applied : gmap jsstring (gmap Z jsstring);
  log : list jsstring;
  customException : jsstring;
  showBest : bool
}.

Definition init : state :=
  State 0 ∅ [] (lit "UpstreamUnavailableException") false.

(** [Object.values(applied[s.key] || {})]; the order of the values plays no
    part in what is computed from them. *)
Definition used_of (st : state) (s : Stage) : list jsstring :=
  (map_to_list (default ∅ (applied st !! key s))).*2.

(** [u === id || u.startsWith(`${id}:`)] *)
Definition matches_id (id u : jsstring) : bool :=
  bool_decide (u = id) || startsWith (id ++ lit ":") u.

Record score := Score { ok : bool; used : nat; extras : nat }.

Definition scoreStage (st : state) (s : Stage) : score :=
  let used := used_of st s in
  let has id := existsb (matches_id id) used in
  let needed := expectedKeys s in
  Score (forallb has needed)
        (length used)
        (length (List.filter (fun u => negb (existsb (fun k => matches_id k u) needed)) used)).

(** [applyAction]; [now] is the value that [Date.now()] returns. *)
Definition applyAction (actionId : jsstring) (now : Z) (st : state)
    : option state :=
  stage ← STAGES !! stageIdx st;
  let chosen :=
    if bool_decide (actionId = id_throw)
       && negb (bool_decide (customException st = []))
    then lit "throw:" ++ customException st else actionId in
  let next := <[now := chosen]> (default ∅ (applied st !! key stage)) in
  Some (State (stageIdx st)
          (<[key stage := next]> (applied st))
          (log st ++ [lit "Applied "
                        ++ (if bool_decide (actionId = id_throw)
                            then lit "Throw(" ++ customException st ++ lit ")"
                            else actionId)
                        ++ lit " to " ++ title stage])
          (customException st) (showBest st)).

Definition goNext (st : state) : option state :=
  stage ← STAGES !! stageIdx st;
  let result := scoreStage st stage in
  if negb (ok result) then
    Some (State (stageIdx st) (applied st)
            (log st ++ [lit "Hint for " ++ title stage ++ lit ": " ++ hint stage])
            (customException st) (showBest st))
  else if bool_decide (stageIdx st < length STAGES - 1)%nat then
    Some (State (stageIdx st + 1) (applied st) (log st) (customException st)
            (showBest st))
  else
    Some (State (stageIdx st) (applied st) (log st) (customException st) true).

Definition reset (st : state) : option state :=
  Some (State 0 ∅ [] (customException st) false).

(** The two inline handlers: the text field and the hint button. *)
Definition setCustomException (v : jsstring) (st : state) : option state :=
  Some (State (stageIdx st) (applied st) (log st) v (showBest st)).

Definition needHint (st : state) : option state :=
  stage ← STAGES !! stageIdx st;
  Some (State (stageIdx st) (applied st)
          (log st ++ [lit "Hint: " ++ hint stage])
          (customException st) (showBest st)).

Inductive event :=
| Dropped (actionId : jsstring) (now : Z)
| NextClicked
| RestartClicked
| NameEdited (v : jsstring)
| HintClicked.

Definition handle (e : event) (st : state) : option state :=
  match e with
  | Dropped a now => applyAction a now st
  | NextClicked => goNext st
  | RestartClicked => reset st
  | NameEdited v => setCustomException v st
  | HintClicked => needHint st
  end.

Definition step (st : state) (e : event) : state := default st (handle e st).

Definition run (st : state) (es : list event) : state := foldl step st es.

Definition reachable (st : state) : Prop := exists es, st = run init es.

(** How the list of applied actions shows a recorded value:
    [a.startsWith("throw:") ? a.replace("throw:", "Throw(") + ")" : a] *)
Definition shown (a : jsstring) : jsstring :=
  if startsWith (lit "throw:") a then
    replaceString (lit "throw:") (lit "Throw(") a ++ lit ")"
  else a.

End Strict.

(** ** Notions used to state the properties *)

Import Lenient.

(** [s.includes(p)] *)
Fixpoint includes (p s : jsstring) : bool :=
  startsWith p s ||
  match s with
  | [] => false
  | _ :: s' => includes p s'
  end.

(** Runs of white space, and runs of characters that [.] matches. *)
Definition spaces (ws : jsstring) : Prop := Forall (fun c => is_space c = true) ws.
Definition dots (e : jsstring) : Prop := Forall (fun c => is_dot c = true) e.

(** A run of characters of a class, and the test for the empty run. *)
Definition class_run (c : cclass) (w : jsstring) : Prop :=
  Forall (fun x => in_class c x = true) w.

Definition empty_b (w : jsstring) : bool := bool_decide (w = []).

(** An expression without its capture groups. *)
Fixpoint erase (r : regex) : regex :=
  match r with
  | RGroup r' => erase r'
  | RSeq r1 r2 => RSeq (erase r1) (erase r2)
  | _ => r
  end.

(** Two results of the matcher that stop at the same place. *)
Definition same_place (o o' : option mstate) : Prop :=
  match o, o' with
  | Some a, Some a' => m_bol a = m_bol a' /\ m_rest a = m_rest a'
  | None, None => True
  | _, _ => False
  end.

Definition same_place_cont (k k' : cont) : Prop :=
  forall x x', m_bol x = m_bol x' -> m_rest x = m_rest x' ->
    same_place (k x) (k' x').

(** [re_return_null] at the current position, without backtracking: the
    white space is followed by a letter, so only its longest run counts. *)
Definition return_null_here (s : jsstring) : option (jsstring * option jsstring) :=
  if startsWith (lit "return") s then
    match drop 6 s with
    | x :: s1 =>
        if is_space x then
          let s2 := skip_ws s1 in
          if startsWith (lit "null") s2 then
            Some (match drop 4 s2 with
                  | y :: t => if y =? 59 then t else y :: t
                  | [] => []
                  end, None)
          else None
        else None
    | [] => None
    end
  else None.

(** The number of lines of a snippet that match an expression. *)
Definition count_lines (r : regex) (lines : list jsstring) : nat :=
  length (List.filter (test r) lines).

(** The number of matches in a line, found from left to right, each search
    starting where the previous match ended: the length of [s.match] with the
    global flag, for an expression that matches no empty text. *)
Fixpoint occurrences_fuel (fuel : nat) (r : regex) (s : jsstring) : nat :=
  match fuel with
  | O => O
  | S fuel' =>
      match exec r s with
      | Some m => S (occurrences_fuel fuel' r (r_rest m))
      | None => O
      end
  end.

Definition occurrences (r : regex) (s : jsstring) : nat :=
  occurrences_fuel (S (length s)) r s.

Definition total_occurrences (r : regex) (lines : list jsstring) : nat :=
  sum_list (map (occurrences r) lines).

(** The sentence about [applyThrow] with the matching lines counted: a
    replaced statement makes one line fewer match. *)
Definition throw_claim (lines : list jsstring) (i : nat) : Prop :=
  forall line lines',
    lines !! i = Some line -> applyThrow lines i = Some lines' ->
    if test re_return_null line then
      length lines' = length lines /\
      (count_lines re_return_null lines' + 1
       = count_lines re_return_null lines)%nat
    else length lines' = S (length lines).

(** The sentence about [applyCatch] as it is worded: the trimmed text of the
    replaced line is found in the third line of the block. *)
Definition catch_claim (lines : list jsstring) (i : nat) : Prop :=
  forall orig lines',
    lines !! i = Some orig -> applyCatch lines i = Some lines' ->
    length lines' = (length lines + 4)%nat /\
    exists a b, lines' !! (i + 2)%nat = Some (a ++ trim orig ++ b).

(** A way to read a line as some text, [return], white space, an expression
    that stays on the line, [;] and more text. *)
Definition return_stmt (line pre ws e post : jsstring) : Prop :=
  line = pre ++ lit "return" ++ ws ++ e ++ lit ";" ++ post /\
  ws <> [] /\ spaces ws /\ e <> [] /\ dots e.

(** The sentence about [applyOptionalOf] as it is worded: a line that is an
    indentation, [return], white space, a value that is not wrapped already,
    [;] and text without a further [;] is rewritten in place. *)
Definition optional_claim (lines : list jsstring) (i : nat) : Prop :=
  forall indent ws c x post lines',
    lines !! i = Some (indent ++ lit "return" ++ ws ++ (c :: x) ++ lit ";" ++ post) ->
    spaces indent -> ws <> [] -> spaces ws ->
    is_space c = false -> dots (c :: x) -> 59 ∉ post ->
    includes (lit "Optional.") (c :: x) = false ->
    applyOptionalOf lines i = Some lines' ->
    length lines' = length lines /\
    lines' = <[i := indent ++ lit "return Optional.of(" ++ (c :: x)
                      ++ lit ");" ++ post]> lines.

(** The sentence about the restart as it is worded, for the strict engine:
    after any events the restart gives the initial state. *)
Definition restart_claim (es : list Strict.event) : Prop :=
  Strict.step (Strict.run Strict.init es) Strict.RestartClicked = Strict.init.

(** Whether the Next button advances, in each engine. *)
Definition lenient_can_advance (st : Lenient.state) : bool :=
  match STAGES !! Lenient.stageIdx st with
  | Some stage =>
      Lenient.canAdvance (default 0 (Lenient.appliedCounts st !! key stage))
  | None => false
  end.

Definition strict_can_advance (st : Strict.state) : bool :=
  match STAGES !! Strict.stageIdx st with
  | Some stage => Strict.ok (Strict.scoreStage st stage)
  | None => false
  end.

(** How the stage index may move in one step: it stays, it goes one forward on
    a successful advance, or it goes back to the first stage on a restart. *)
Definition index_move (is_next is_restart can_advance : bool) (i i' : nat) : Prop :=
  i' = i \/
  (is_next = true /\ can_advance = true /\ i' = S i /\ (i' < length STAGES)%nat) \/
  (is_restart = true /\ i' = O).

Definition lenient_is_next (e : Lenient.event) : bool :=
  match e with Lenient.NextClicked => true | _ => false end.
Definition lenient_is_restart (e : Lenient.event) : bool :=
  match e with Lenient.RestartClicked => true | _ => false end.
Definition strict_is_next (e : Strict.event) : bool :=
  match e with Strict.NextClicked => true | _ => false end.
Definition strict_is_restart (e : Strict.event) : bool :=
  match e with Strict.RestartClicked => true | _ => false end.

(** The hint entry that a refused advance appends. *)
Definition hint_entry (s : Stage) : jsstring :=
  lit "Hint for " ++ title s ++ lit ": " ++ hint s.

(** *** The actions that a stage has seen, in the strict engine *)

(** The identifiers of the three action kinds. *)
Definition is_action_id (a : jsstring) : Prop :=
  a = Strict.id_throw \/ a = Strict.id_catch \/ a = Strict.id_opt.

Definition known_drop (e : Strict.event) : Prop :=
  match e with
  | Strict.Dropped a _ => is_action_id a
  | _ => True
  end.

(** The value of the clock at a drop. *)
Definition stamp (e : Strict.event) : option Z :=
  match e with
  | Strict.Dropped _ now => Some now
  | _ => None
  end.

Definition timestamps (es : list Strict.event) : list Z := omap stamp es.

(** The drops since the last restart, each with the key of the stage that was
    active: the applied action kinds of a stage. *)
Definition note (st : Strict.state) (e : Strict.event)
    (h : list (jsstring * jsstring)) : list (jsstring * jsstring) :=
  match e with
  | Strict.Dropped a _ =>
      match STAGES !! Strict.stageIdx st with
      | Some stage => (key stage, a) :: h
      | None => h
      end
  | Strict.RestartClicked => []
  | _ => h
  end.

Fixpoint history (st : Strict.state) (es : list Strict.event)
    (h : list (jsstring * jsstring)) : list (jsstring * jsstring) :=
  match es with
  | [] => h
  | e :: es' => history (Strict.step st e) es' (note st e h)
  end.

Definition applied_kinds (es : list Strict.event) : list (jsstring * jsstring) :=
  history Strict.init es [].

(** The sentence about [scoreStage] for any sequence of events, whatever the
    clock says. *)
Definition strict_claim (es : list Strict.event) (s : Stage) : Prop :=
  Strict.ok (Strict.scoreStage (Strict.run Strict.init es) s) = true <->
  forall k, k ∈ expectedKeys s -> (key s, k) ∈ applied_kinds es.

(** A stage has an action when a recorded value counts for it. *)
Definition has (st : Strict.state) (s : Stage) (k : jsstring) : Prop :=
  exists u, u ∈ Strict.used_of st s /\ Strict.matches_id k u = true.

(** What the record and the drops seen so far have in common: the record has
    an action exactly when it was dropped, and it holds no time that the
    clock has not shown. *)
Definition inv (st : Strict.state) (h : list (jsstring * jsstring))
    (T : list Z) : Prop :=
  (forall s k, is_action_id k -> has st s k <-> (key s, k) ∈ h) /\
  (forall s t,
     is_Some (default ∅ (Strict.applied st !! key s) !! t) -> t ∈ T).

(** *** Further notions *)

(** What [esc] does to one character. *)
Definition esc_char (c : N) : jsstring :=
  if c =? 38 then lit "&amp;" else if c =? 60 then lit "&lt;" else [c].

(** The three transforms, by the identifier of the action. *)
Definition transform (a : jsstring) (lines : list jsstring) (i : nat)
    : option (list jsstring) :=
  if bool_decide (a = Lenient.id_throw) then applyThrow lines i
  else if bool_decide (a = Lenient.id_catch) then applyCatch lines i
  else if bool_decide (a = Lenient.id_opt) then applyOptionalOf lines i
  else Some lines.

(** The count of a stage in the lenient engine, as [next] reads it. *)
Definition count_of (st : Lenient.state) (s : Stage) : N :=
  default 0 (Lenient.appliedCounts st !! key s).

(** The record of a stage in the strict engine, as [scoreStage] reads it. *)
Definition record_of (st : Strict.state) (s : Stage) : gmap Z jsstring :=
  default ∅ (Strict.applied st !! key s).

(** The number of drops on a stage among the drops that [history] notes. *)
Definition drops_on (k : jsstring) (h : list (jsstring * jsstring)) : nat :=
  length (List.filter (fun p => bool_decide (p.1 = k)) h).

(** The label of a drop in the log of the strict engine. *)
Definition logged_label (a ce : jsstring) : jsstring :=
  if bool_decide (a = Strict.id_throw) then lit "Throw(" ++ ce ++ lit ")" else a.

(** The Throw transform dropped [n] times on the same line. *)
Fixpoint applyThrow_times (n : nat) (lines : list jsstring) (i : nat)
    : option (list jsstring) :=
  match n with
  | O => Some lines
  | S n' => lines' ← applyThrow lines i; applyThrow_times n' lines' i
  end.

(** * Properties *)

Section StringFacts.
Implicit Types (p s t : jsstring).

Lemma startsWith_app p t : startsWith p (p ++ t) = true.
Proof.
  induction p as [|a p IH]; simpl; [done|].
  by rewrite N.eqb_refl.
Qed.

Lemma startsWith_inv p s : startsWith p s = true -> s = p ++ drop (length p) s.
Proof.
  revert s; induction p as [|a p IH]; intros [|b s]; simpl; try done.
  intros [Hab Hps]%andb_true_iff. apply N.eqb_eq in Hab as ->.
  f_equal. by apply IH.
Qed.

Lemma startsWith_iff p s : startsWith p s = true <-> exists t, s = p ++ t.
Proof.
  split.
  - intros H. eexists. by apply startsWith_inv.
  - intros [t ->]. apply startsWith_app.
Qed.

Lemma take_skip_ws s : take_ws s ++ skip_ws s = s.
Proof.
  induction s as [|c s IH]; simpl; [done|].
  destruct (is_space c); simpl; [by rewrite IH|done].
Qed.

Lemma take_ws_spaces s : Forall (fun c => is_space c = true) (take_ws s).
Proof.
  induction s as [|c s IH]; simpl; [constructor|].
  destruct (is_space c) eqn:E; [by constructor|constructor].
Qed.

Lemma skip_ws_head s c t : skip_ws s = c :: t -> is_space c = false.
Proof.
  induction s as [|a s IH]; simpl; [done|].
  destruct (is_space a) eqn:E; [done|]. by intros [= <- _].
Qed.

Lemma includes_iff p s : includes p s = true <-> exists a b, s = a ++ p ++ b.
Proof.
  split.
  - induction s as [|c s IH]; simpl.
    + rewrite orb_false_r. intros [t Ht]%startsWith_iff. by exists [], t.
    + intros [[t Ht]%startsWith_iff|H]%orb_true_iff.
      * by exists [], t.
      * destruct (IH H) as (a & b & ->). by exists (c :: a), b.
  - intros (a & b & ->). induction a as [|c a IH].
    + pose proof (startsWith_app p b) as H. simpl.
      destruct (p ++ b); simpl; by rewrite H.
    + simpl in *. rewrite IH. apply orb_true_r.
Qed.
End StringFacts.

(** The matcher *)
Section MatcherFacts.
Implicit Types (c : cclass) (k : cont) (s w : jsstring) (cap : option jsstring).

(** Any success of the iteration is a success of the continuation after
    some run of the class. *)
Lemma star_sound c b s cap k r :
  star c b s cap k = Some r ->
  exists w rest, s = w ++ rest /\ class_run c w /\
    k (MS (b && empty_b w) rest cap) = Some r.
Proof.
  revert b; induction s as [|x s IH]; intros b; simpl.
  - intros H. exists [], []. rewrite andb_true_r. by repeat split; [constructor|].
  - destruct (in_class c x) eqn:Hx.
    + destruct (star c false s cap k) as [r'|] eqn:Hs.
      * intros [= ->]. destruct (IH _ Hs) as (w & rest & -> & Hw & Hk).
        exists (x :: w), rest. repeat split; [by constructor|].
        by rewrite andb_false_r.
      * intros H. exists [], (x :: s). rewrite andb_true_r.
        by repeat split; [constructor|].
    + intros H. exists [], (x :: s). rewrite andb_true_r.
      by repeat split; [constructor|].
Qed.

(** The iteration prefers the longest run: a success of the continuation
    after the run [w] is the result when no longer run leads to one. *)
Lemma star_first c b w rest cap k :
  class_run c w ->
  match rest with
  | x :: rest' => in_class c x = true -> star c false rest' cap k = None
  | [] => True
  end ->
  is_Some (k (MS (b && empty_b w) rest cap)) ->
  star c b (w ++ rest) cap k = k (MS (b && empty_b w) rest cap).
Proof.
  intros Hw Hlater. revert b. induction Hw as [|x w Hx Hw IH]; intros b Hk; simpl.
  - rewrite andb_true_r in *. destruct rest as [|x rest']; simpl; [done|].
    destruct (in_class c x) eqn:Hx; [|done]. by rewrite Hlater.
  - rewrite Hx. rewrite andb_false_r in *. specialize (IH false).
    simpl in IH. rewrite IH by done. by destruct Hk as [r ->].
Qed.

(** When the continuation fails wherever the class goes on, only the
    longest run counts. *)
Lemma star_longest b s cap k :
  (forall b' x t, is_space x = true -> k (MS b' (x :: t) cap) = None) ->
  star CSpace b s cap k
  = k (MS (b && empty_b (take_ws s)) (skip_ws s) cap).
Proof.
  intros Hk. revert b; induction s as [|x s IH]; intros b; simpl.
  - by rewrite andb_true_r.
  - destruct (is_space x) eqn:Hx; simpl.
    + rewrite IH. simpl. rewrite andb_false_r.
      destruct (k _) eqn:E; [done|]. by apply Hk.
    + by rewrite andb_true_r.
Qed.

(** No run leads to a success when the continuation fails after all of them. *)
Lemma star_none c b s cap k :
  (forall b' t, suffix t s -> k (MS b' t cap) = None) ->
  star c b s cap k = None.
Proof.
  revert b; induction s as [|x s IH]; intros b Hk; simpl.
  - by apply Hk.
  - rewrite IH.
    + destruct (in_class c x); by apply Hk.
    + intros b' t Ht. apply Hk. by apply suffix_cons_r.
Qed.

(** The iteration succeeds as soon as the continuation does after some run. *)
Lemma star_complete c b w rest cap k :
  class_run c w ->
  is_Some (k (MS (b && empty_b w) rest cap)) ->
  is_Some (star c b (w ++ rest) cap k).
Proof.
  intros Hw. revert b. induction Hw as [|x w Hx Hw IH]; intros b Hk; simpl.
  - rewrite andb_true_r in Hk. destruct rest as [|y r]; simpl; [done|].
    destruct (in_class c y); [|done]. by destruct (star c false r cap k).
  - rewrite Hx. rewrite andb_false_r in Hk. specialize (IH false Hk).
    by destruct IH as [r ->].
Qed.

(** The iteration stops at the longest run after which the continuation
    succeeds. *)
Lemma star_greedy c b s cap k r :
  star c b s cap k = Some r ->
  exists w rest, s = w ++ rest /\ class_run c w /\
    k (MS (b && empty_b w) rest cap) = Some r /\
    forall w' rest', s = w' ++ rest' -> class_run c w' ->
      (length w < length w')%nat ->
      k (MS (b && empty_b w') rest' cap) = None.
Proof.
  revert b; induction s as [|x s IH]; intros b; simpl.
  - intros H. exists [], []. rewrite andb_true_r.
    repeat split; [constructor|done|].
    intros w' rest' Hs _ Hlen. symmetry in Hs.
    apply app_eq_nil in Hs as [-> _]. simpl in Hlen. lia.
  - destruct (in_class c x) eqn:Hx.
    + destruct (star c false s cap k) as [r'|] eqn:Hs.
      * intros [= ->]. destruct (IH _ Hs) as (w & rest & -> & Hw & Hk & Hmax).
        exists (x :: w), rest. repeat split; [by constructor|by rewrite andb_false_r|].
        intros [|y w'] rest' Hs' Hw' Hlen; simpl in Hlen; [lia|].
        injection Hs' as <- Hs'. apply Forall_cons in Hw' as [_ Hw'].
        rewrite andb_false_r. apply (Hmax w' rest' Hs' Hw'). lia.
      * intros H. exists [], (x :: s). rewrite andb_true_r.
        repeat split; [constructor|done|].
        intros [|y w'] rest' Hs' Hw' Hlen; simpl in Hlen; [lia|].
        injection Hs' as <- ->. apply Forall_cons in Hw' as [_ Hw'].
        rewrite andb_false_r.
        destruct (k (MS false rest' cap)) as [r1|] eqn:E; [|done].
        assert (Hc : is_Some (star c false (w' ++ rest') cap k)).
        { apply star_complete; [done|]. by rewrite andb_false_l, E. }
        rewrite Hs in Hc. by destruct Hc.
    + intros H. exists [], (x :: s). rewrite andb_true_r.
      repeat split; [constructor|done|].
      intros [|y w'] rest' Hs' Hw' Hlen; simpl in Hlen; [lia|].
      injection Hs' as <- ->. apply Forall_cons in Hw' as [Hy _]. congruence.
Qed.
End MatcherFacts.
(** The leftmost match, for an expression whose matches do not depend on
    where the input starts. *)
Section LeftmostMatch.
Context {r : regex} {f : jsstring -> option (jsstring * option jsstring)}.
Hypothesis Hf : forall b s, match_here r b s = f s.

Lemma search_here i s rest cap :
  f s = Some (rest, cap) -> search r i s = Some (MR i rest cap).
Proof. intros H. destruct s; simpl; by rewrite Hf, H. Qed.

Lemma search_skip n i s :
  (forall j, (j < n)%nat -> f (drop j s) = None) -> (n <= length s)%nat ->
  search r i s = search r (i + n) (drop n s).
Proof.
  revert i s; induction n as [|n IH]; intros i s Hnone Hlen.
  - by rewrite Nat.add_0_r, drop_0.
  - destruct s as [|x s]; simpl in Hlen; [lia|].
    simpl. rewrite Hf.
    pose proof (Hnone O ltac:(lia)) as H0. rewrite drop_0 in H0. rewrite H0.
    rewrite IH; [by rewrite Nat.add_succ_r| |lia].
    intros j Hj. apply (Hnone (S j)). lia.
Qed.

Lemma search_sound i s m :
  search r i s = Some m ->
  exists j, r_index m = (i + j)%nat /\ (j <= length s)%nat /\
    f (drop j s) = Some (r_rest m, r_cap m) /\
    forall j', (j' < j)%nat -> f (drop j' s) = None.
Proof.
  revert i; induction s as [|x s IH]; intros i; simpl; rewrite Hf.
  - destruct (f []) as [[rest cap]|] eqn:E; [|done].
    intros [= <-]. exists O. simpl. rewrite Nat.add_0_r.
    repeat split; [lia|done|lia].
  - destruct (f (x :: s)) as [[rest cap]|] eqn:E.
    + intros [= <-]. exists O. simpl. rewrite Nat.add_0_r.
      repeat split; [lia|done|lia].
    + intros (j & Hi & Hj & Hm & Hbefore)%IH. exists (S j). simpl.
      repeat split; [lia|lia|done|].
      intros [|j'] Hj'; simpl; [done|]. apply Hbefore. lia.
Qed.

Lemma search_none i s :
  search r i s = None <-> forall j, (j <= length s)%nat -> f (drop j s) = None.
Proof.
  revert i; induction s as [|x s IH]; intros i; simpl; rewrite Hf.
  - split.
    + destruct (f []) as [[??]|] eqn:E; [done|]. intros _ j _. by rewrite drop_nil.
    + intros H. pose proof (H O ltac:(simpl; lia)) as H0.
      rewrite drop_0 in H0. by rewrite H0.
  - split.
    + destruct (f (x :: s)) as [[??]|] eqn:E; [done|].
      intros H [|j] Hj; simpl; [done|]. apply (proj1 (IH _) H). lia.
    + intros H. pose proof (H O ltac:(simpl; lia)) as H0.
      rewrite drop_0 in H0. rewrite H0. apply IH.
      intros j Hj. apply (H (S j)). lia.
Qed.

Lemma search_shift i d s :
  search r (i + d) s
  = (fun m => MR (r_index m + d) (r_rest m) (r_cap m)) <$> search r i s.
Proof.
  revert i; induction s as [|x s IH]; intros i; simpl; rewrite !Hf.
  - by destruct (f []) as [[??]|].
  - destruct (f (x :: s)) as [[??]|]; [done|]. apply (IH (S i)).
Qed.

Lemma test_true_iff s :
  test r s = true <-> exists j, (j <= length s)%nat /\ is_Some (f (drop j s)).
Proof.
  unfold test, exec. split.
  - destruct (search r O s) as [m|] eqn:E; [|done]. intros _.
    apply search_sound in E as (j & _ & Hj & Hm & _). exists j. by rewrite Hm.
  - intros (j & Hj & Hm). destruct (search r O s) eqn:E; [done|].
    rewrite (proj1 (search_none _ _) E j Hj) in Hm. by destruct Hm.
Qed.
End LeftmostMatch.

Section ReturnNull.

Lemma match_here_return_null b s :
  match_here re_return_null b s = return_null_here s.
Proof.
  unfold match_here, re_return_null, return_null_here.
  cbn [rmatch m_rest m_bol m_cap in_class].
  destruct (startsWith (lit "return") s); [|done].
  change (length (lit "return")) with 6%nat.
  destruct (drop 6 s) as [|x s1]; [done|].
  destruct (is_space x); [|done].
  rewrite star_longest.
  - cbn [rmatch m_rest m_bol m_cap].
    destruct (startsWith (lit "null") (skip_ws s1)); [|done].
    change (length (lit "null")) with 4%nat.
    destruct (drop 4 (skip_ws s1)) as [|y t]; [done|].
    by destruct (y =? 59).
  - intros b' y t Hy. cbn [rmatch m_rest m_bol m_cap].
    destruct (startsWith (lit "null") (y :: t)) eqn:E; [|done].
    apply startsWith_inv in E.
    change (lit "null") with (110 :: lit "ull") in E.
    injection E as -> _. done.
Qed.

(** The shape of a match. *)
Lemma return_null_here_sound s rest cap :
  return_null_here s = Some (rest, cap) ->
  cap = None /\
  exists ws semi, s = lit "return" ++ ws ++ lit "null" ++ semi ++ rest /\
    ws <> [] /\ Forall (fun c => is_space c = true) ws /\
    (semi = [] \/ semi = lit ";").
Proof.
  unfold return_null_here.
  destruct (startsWith (lit "return") s) eqn:E1; [|done].
  apply startsWith_inv in E1. change (length (lit "return")) with 6%nat in E1.
  destruct (drop 6 s) as [|x s1]; [done|].
  destruct (is_space x) eqn:Hx; [|done]. cbn zeta.
  destruct (startsWith (lit "null") (skip_ws s1)) eqn:E2; [|done].
  apply startsWith_inv in E2. change (length (lit "null")) with 4%nat in E2.
  intros [= Hrest <-]. split; [done|].
  exists (x :: take_ws s1).
  destruct (drop 4 (skip_ws s1)) as [|y t] eqn:E3.
  - exists []. subst rest. rewrite E1 at 1.
    repeat split; [|done|constructor; [done|apply take_ws_spaces]|by left].
    do 2 f_equal. simpl. f_equal.
    rewrite <- (take_skip_ws s1) at 1. by rewrite E2 at 1.
  - destruct (y =? 59) eqn:Hy.
    + apply N.eqb_eq in Hy as ->. subst t. exists (lit ";").
      rewrite E1 at 1.
      repeat split; [|done|constructor; [done|apply take_ws_spaces]|by right].
      do 2 f_equal. simpl. f_equal.
      rewrite <- (take_skip_ws s1) at 1. by rewrite E2 at 1.
    + exists []. subst rest. rewrite E1 at 1.
      repeat split; [|done|constructor; [done|apply take_ws_spaces]|by left].
      do 2 f_equal. simpl. f_equal.
      rewrite <- (take_skip_ws s1) at 1. by rewrite E2 at 1.
Qed.

Lemma skip_ws_run ws t :
  Forall (fun c => is_space c = true) ws ->
  match t with x :: _ => is_space x = false | [] => True end ->
  skip_ws (ws ++ t) = t.
Proof.
  intros Hws Ht. induction Hws as [|c ws Hc _ IH]; simpl.
  - destruct t as [|x t]; simpl; [done|]. by rewrite Ht.
  - by rewrite Hc.
Qed.

Lemma return_null_here_complete ws tail :
  ws <> [] -> Forall (fun c => is_space c = true) ws ->
  is_Some (return_null_here (lit "return" ++ ws ++ lit "null" ++ tail)).
Proof.
  intros Hne Hws. unfold return_null_here.
  rewrite startsWith_app.
  change (drop 6 (lit "return" ++ ?t)) with t.
  destruct Hws as [|x ws Hx Hws]; [done|].
  change ((x :: ws) ++ ?t) with (x :: ws ++ t). cbn iota. rewrite Hx.
  rewrite skip_ws_run by done. by rewrite startsWith_app.
Qed.

(** The letter [t] is the third character of a match and nowhere else. *)
Lemma return_null_letter_t ws n :
  Forall (fun c => is_space c = true) ws ->
  (lit "return" ++ ws ++ lit "null") !! n = Some 116 -> n = 2%nat.
Proof.
  intros Hws.
  destruct n as [|[|[|[|[|[|n]]]]]]; try done.
  change ((lit "return" ++ ws ++ lit "null") !! S (S (S (S (S (S n))))))
    with ((ws ++ lit "null") !! n).
  rewrite lookup_app. destruct (ws !! n) as [c|] eqn:E.
  - intros [= ->]. by apply (Forall_lookup_1 _ _ _ _ Hws) in E.
  - by destruct (n - length ws)%nat as [|[|[|[|]]]].
Qed.
End ReturnNull.

Section ThrowReplacement.

(** A match that starts before the inserted throw statement ends before it. *)
Lemma return_null_no_crossing b t1 t2 :
  is_Some (return_null_here (b ++ throw_upstream ++ t1)) ->
  is_Some (return_null_here (b ++ t2)).
Proof.
  intros [[rest cap] H].
  apply return_null_here_sound in H as (_ & ws & semi & Hs & Hne & Hws & _).
  set (m := lit "return" ++ ws ++ lit "null").
  assert (Hs' : b ++ throw_upstream ++ t1 = m ++ (semi ++ rest))
    by (unfold m; by rewrite Hs, <- !app_assoc).
  assert (Hdone : forall l, b = m ++ l -> is_Some (return_null_here (b ++ t2))).
  { intros l ->. unfold m. rewrite <- !app_assoc.
    by apply return_null_here_complete. }
  apply app_eq_app in Hs' as [l [[Hb _]|[Hm Hl]]]; [by eapply Hdone|].
  destruct l as [|c l']; [apply (Hdone []); by rewrite app_nil_r in *|].
  exfalso.
  change throw_upstream with (116 :: 104 :: drop 2 throw_upstream) in Hl.
  injection Hl as <- Hl.
  assert (Hlen : length b = 2%nat).
  { apply (return_null_letter_t ws); [done|]. fold m. rewrite Hm.
    by rewrite list_lookup_middle. }
  assert (H3 : m !! 3%nat = Some 117) by done.
  rewrite Hm in H3. rewrite lookup_app_r in H3 by lia.
  rewrite Hlen in H3. simpl in H3.
  destruct l' as [|c' l'']; [done|]. injection Hl as <- _. done.
Qed.

Lemma not_return_start d t :
  startsWith (take 3 d) (lit "ret") = false ->
  startsWith (lit "return") (d ++ t) = false.
Proof.
  intros H. destruct (startsWith _ (d ++ t)) eqn:E; [|done].
  apply startsWith_inv in E.
  change (lit "return") with (114 :: 101 :: 116 :: lit "urn") in E.
  destruct d as [|a [|a' [|a'' d']]]; [done|..]; simpl in E.
  - injection E as -> _. done.
  - injection E as -> -> _. done.
  - injection E as -> -> -> _. done.
Qed.

(** No match starts inside the inserted throw statement. *)
Lemma return_null_not_inside j t :
  (j < length throw_upstream)%nat ->
  return_null_here (drop j throw_upstream ++ t) = None.
Proof.
  intros Hj.
  assert (Hall : forallb (fun j =>
            negb (startsWith (take 3 (drop j throw_upstream)) (lit "ret")))
          (seq 0 (length throw_upstream)) = true) by by vm_compute.
  rewrite forallb_forall in Hall.
  specialize (Hall j). rewrite in_seq in Hall.
  specialize (Hall ltac:(lia)). apply negb_true_iff in Hall.
  unfold return_null_here. by rewrite not_return_start.
Qed.

(** The leftmost match in a line whose first match was replaced is the
    leftmost match in what followed that match. *)
Lemma exec_after_replace pre t post :
  (forall j, (j < length pre)%nat -> return_null_here (drop j (pre ++ t)) = None) ->
  exec re_return_null (pre ++ throw_upstream ++ post)
  = (fun m => MR (r_index m + (length pre + length throw_upstream))
                (r_rest m) (r_cap m))
    <$> exec re_return_null post.
Proof.
  intros Hpre. unfold exec.
  rewrite (search_skip match_here_return_null
             (length pre + length throw_upstream)).
  - rewrite app_assoc, drop_app_length'; [|by rewrite length_app].
    apply (search_shift match_here_return_null O).
  - intros j Hj. destruct (decide (j < length pre)%nat) as [Hlt|Hge].
    + rewrite drop_app_le by lia.
      destruct (return_null_here _) eqn:E; [|done].
      assert (Hs : is_Some (return_null_here (drop j pre ++ t))).
      { eapply return_null_no_crossing. by rewrite E. }
      rewrite <- drop_app_le, Hpre in Hs by lia. by destruct Hs.
    + rewrite drop_app_ge by lia. rewrite drop_app_le by lia.
      apply return_null_not_inside. lia.
  - rewrite !length_app. lia.
Qed.
End ThrowReplacement.

Section Indent.
Lemma search_unfold r i s :
  search r i s
  = match match_here r (bool_decide (i = O)) s with
    | Some (rest, cap) => Some (MR i rest cap)
    | None => match s with [] => None | _ :: s' => search r (S i) s' end
    end.
Proof. by destruct s. Qed.

Lemma exec_indent s : exec re_indent s = Some (MR O (skip_ws s) None).
Proof.
  assert (H : match_here re_indent true s = Some (skip_ws s, None)).
  { unfold match_here, re_indent. cbn [rmatch m_rest m_bol m_cap].
    rewrite <- (take_skip_ws s) at 1.
    rewrite star_first; [done|apply take_ws_spaces| |done].
    destruct (skip_ws s) as [|x t] eqn:E; [done|].
    apply skip_ws_head in E. simpl. by rewrite E. }
  unfold exec. rewrite search_unfold.
  change (bool_decide (O = O)) with true. by rewrite H.
Qed.

Lemma indent_of_take_ws s : indent_of s = take_ws s.
Proof.
  unfold indent_of, str_match. rewrite exec_indent. simpl. unfold matched.
  simpl. rewrite Nat.sub_0_r, drop_0.
  assert (Hlen : length s = (length (take_ws s) + length (skip_ws s))%nat)
    by by rewrite <- length_app, take_skip_ws.
  replace (length s - length (skip_ws s))%nat with (length (take_ws s)) by lia.
  transitivity (take (length (take_ws s)) (take_ws s ++ skip_ws s));
    [by rewrite take_skip_ws|by rewrite take_app_length].
Qed.
End Indent.

Section Throw.
Lemma exec_return_null_sound line m :
  exec re_return_null line = Some m ->
  exists stmt ws semi,
    line = take (r_index m) line ++ stmt ++ r_rest m /\
    stmt = lit "return" ++ ws ++ lit "null" ++ semi /\
    ws <> [] /\ Forall (fun c => is_space c = true) ws /\
    (semi = [] \/ semi = lit ";") /\
    (r_index m <= length line)%nat /\
    (length (r_rest m) < length line)%nat /\
    (forall j, (j < r_index m)%nat -> return_null_here (drop j line) = None) /\
    r_cap m = None.
Proof.
  intros H. apply (search_sound match_here_return_null) in H
    as (j & -> & Hj & Hm & Hbefore). simpl.
  apply return_null_here_sound in Hm as (Hcap & ws & semi & Hs & Hne & Hws & Hsemi).
  exists (lit "return" ++ ws ++ lit "null" ++ semi), ws, semi.
  repeat split; try done.
  - rewrite <- !app_assoc, <- Hs. by rewrite take_drop.
  - apply (f_equal length) in Hs. rewrite length_drop, !length_app in Hs.
    simpl in Hs. lia.
Qed.

Lemma occurrences_fuel_enough n1 n2 s :
  (length s < n1)%nat -> (length s < n2)%nat ->
  occurrences_fuel n1 re_return_null s = occurrences_fuel n2 re_return_null s.
Proof.
  revert n2 s; induction n1 as [|n1 IH]; intros [|n2] s H1 H2; try lia.
  simpl. destruct (exec re_return_null s) as [m|] eqn:E; [|done].
  apply exec_return_null_sound in E as (? & ? & ? & _ & _ & _ & _ & _ & _ & Hlt & _ & _).
  f_equal. apply IH; lia.
Qed.

Lemma occurrences_unfold r s :
  occurrences r s
  = match exec r s with
    | Some m => S (occurrences_fuel (length s) r (r_rest m))
    | None => O
    end.
Proof. done. Qed.

Lemma occurrences_match line m :
  exec re_return_null line = Some m ->
  occurrences re_return_null line = S (occurrences re_return_null (r_rest m)).
Proof.
  intros E. rewrite occurrences_unfold, E. f_equal.
  pose proof (exec_return_null_sound _ _ E)
    as (? & ? & ? & _ & _ & _ & _ & _ & _ & Hlt & _ & _).
  apply occurrences_fuel_enough; lia.
Qed.

Lemma occurrences_after_replace pre t post :
  (forall j, (j < length pre)%nat -> return_null_here (drop j (pre ++ t)) = None) ->
  occurrences re_return_null (pre ++ throw_upstream ++ post)
  = occurrences re_return_null post.
Proof.
  intros Hpre. rewrite occurrences_unfold.
  rewrite (exec_after_replace _ t) by done.
  destruct (exec re_return_null post) as [m|] eqn:E; cbn [fmap option_fmap option_map r_rest].
  - rewrite (occurrences_match _ _ E). f_equal.
    pose proof (exec_return_null_sound _ _ E)
      as (? & ? & ? & _ & _ & _ & _ & _ & _ & Hlt & _ & _).
    apply occurrences_fuel_enough; rewrite ?length_app; lia.
  - by rewrite occurrences_unfold, E.
Qed.

Lemma test_after_replace pre t post :
  (forall j, (j < length pre)%nat -> return_null_here (drop j (pre ++ t)) = None) ->
  test re_return_null (pre ++ throw_upstream ++ post) = test re_return_null post.
Proof.
  intros Hpre. unfold test. rewrite (exec_after_replace _ t) by done.
  by destruct (exec re_return_null post).
Qed.

Lemma total_occurrences_insert r lines i old new :
  lines !! i = Some old ->
  (total_occurrences r (<[i := new]> lines) + occurrences r old
   = total_occurrences r lines + occurrences r new)%nat.
Proof.
  unfold total_occurrences.
  revert i; induction lines as [|l lines IH]; intros [|i] H; simplify_eq/=.
  - lia.
  - specialize (IH _ H). lia.
Qed.

Lemma count_lines_insert r lines i old new :
  lines !! i = Some old ->
  (count_lines r (<[i := new]> lines) + (if test r old then 1 else 0)
   = count_lines r lines + (if test r new then 1 else 0))%nat.
Proof.
  unfold count_lines.
  revert i; induction lines as [|l lines IH]; intros [|i] H; simplify_eq/=.
  - destruct (test r old), (test r new); simpl; lia.
  - specialize (IH _ H). destruct (test r l); simpl; lia.
Qed.
End Throw.

(** C2, as worded, fails on a line with two return-null statements: the
    first one is replaced, the line still matches, and the number of matching
    lines stays at one. *)
Lemma applyThrow_two_statements_counterexample :
  ~ throw_claim [lit "return null; return null;"] 0.
Proof.
  intros H. specialize (H _ _ eq_refl eq_refl).
  vm_compute in H. destruct H as [_ H]. discriminate H.
Qed.

(** C2, amended.  At a valid index the Throw transform does one of two
    things.  When the targeted line matches the return-null expression, the
    leftmost return-null statement of the line is replaced in place by the
    throw statement: the line count is unchanged, the number of return-null
    occurrences in the snippet goes down by exactly one, and the number of
    matching lines goes down by one exactly when no further return-null
    statement follows the replaced one on that line.  Otherwise one throw line
    is inserted right after the target, indented one level deeper, every
    other line is kept, and the line count goes up by one. *)
Theorem applyThrow_spec (lines : list jsstring) (i : nat) (line : jsstring) :
  lines !! i = Some line ->
  exists lines', applyThrow lines i = Some lines' /\
    if test re_return_null line then
      exists pre ws semi post,
        line = pre ++ (lit "return" ++ ws ++ lit "null" ++ semi) ++ post /\
        ws <> [] /\ spaces ws /\ (semi = [] \/ semi = lit ";") /\
        exec re_return_null line = Some (MR (length pre) post None) /\
        lines' = <[i := pre ++ throw_upstream ++ post]> lines /\
        length lines' = length lines /\
        (total_occurrences re_return_null lines' + 1
         = total_occurrences re_return_null lines)%nat /\
        (count_lines re_return_null lines'
           + (if test re_return_null post then 0 else 1)
         = count_lines re_return_null lines)%nat
    else
      lines' = take (S i) lines
                 ++ [take_ws line ++ lit "    " ++ throw_custom]
                 ++ drop (S i) lines /\
      length lines' = S (length lines).
Proof.
  intros Hline. unfold applyThrow. rewrite Hline.
  destruct (test re_return_null line) eqn:Htest.
  - eexists; split; [done|].
    unfold replace. pose proof Htest as Htest'. unfold test in Htest.
    destruct (exec re_return_null line) as [m|] eqn:E; [|done].
    destruct (exec_return_null_sound _ _ E)
      as (stmt & ws & semi & Hdec & -> & Hne & Hws & Hsemi & Hidx & Hlt & Hbefore & Hcap).
    set (pre := take (r_index m) line) in *.
    assert (Hpre : length pre = r_index m) by (unfold pre; rewrite length_take; lia).
    assert (Hbefore' : forall j, (j < length pre)%nat ->
              return_null_here (drop j (pre ++ (lit "return" ++ ws ++ lit "null" ++ semi) ++ r_rest m)) = None).
    { intros j Hj. rewrite <- Hdec. apply Hbefore. lia. }
    exists pre, ws, semi, (r_rest m).
    change (flat_map (expand (r_cap m)) [PText throw_upstream])
      with (throw_upstream ++ []). rewrite app_nil_r.
    repeat split; try done.
    + rewrite Hpre, <- Hcap. by destruct m.
    + by rewrite length_insert.
    + pose proof (total_occurrences_insert re_return_null lines i line
                    (pre ++ throw_upstream ++ r_rest m) Hline) as Ht.
      rewrite (occurrences_after_replace _ _ _ Hbefore') in Ht.
      rewrite (occurrences_match _ _ E) in Ht. lia.
    + pose proof (count_lines_insert re_return_null lines i line
                    (pre ++ throw_upstream ++ r_rest m) Hline) as Ht.
      rewrite (test_after_replace _ _ _ Hbefore') in Ht.
      rewrite Htest' in Ht.
      destruct (test re_return_null (r_rest m)); lia.
  - eexists; split; [done|]. unfold splice.
    rewrite indent_of_take_ws, Nat.add_0_r, Nat.add_1_r, <- !app_assoc.
    split; [done|].
    rewrite !length_app, length_take, length_drop.
    apply lookup_lt_Some in Hline. cbn [length]. lia.
Qed.

(** The transform on the return-null line of the last stage. *)
Lemma applyThrow_spec_witness :
  exists lines', applyThrow (snippet stage_upstream) 2 = Some lines' /\
    length lines' = length (snippet stage_upstream).
Proof.
  destruct (applyThrow_spec (snippet stage_upstream) 2
              (lit "return null; // currently hiding errors") eq_refl)
    as (lines' & H & Hspec).
  exists lines'. split; [exact H|].
  change (test re_return_null (lit "return null; // currently hiding errors"))
    with true in Hspec.
  destruct Hspec as (? & ? & ? & ? & _ & _ & _ & _ & _ & _ & Hlen & _).
  exact Hlen.
Defined.

Section Catch.
Lemma skip_ws_suffix s : suffix (skip_ws s) s.
Proof.
  induction s as [|c s IH]; simpl; [done|].
  destruct (is_space c); [by apply suffix_cons_r|done].
Qed.

Lemma elem_of_rev (x : N) s : x ∈ rev s <-> x ∈ s.
Proof. rewrite !list_elem_of_In. symmetry. apply in_rev. Qed.

Lemma elem_of_skip_ws x s : x ∈ skip_ws s -> x ∈ s.
Proof.
  intros H. destruct (skip_ws_suffix s) as [k ->]. apply elem_of_app. by right.
Qed.

Lemma elem_of_trim x s : x ∈ trim s -> x ∈ s.
Proof.
  unfold trim. rewrite elem_of_rev. intros H%elem_of_skip_ws.
  rewrite elem_of_rev in H. by apply elem_of_skip_ws.
Qed.

Lemma replaceAllChar_absent c by_ s : c ∉ s -> replaceAllChar c by_ s = s.
Proof.
  unfold replaceAllChar. induction s as [|x s IH]; simpl; [done|].
  intros [Hx Hs]%not_elem_of_cons. rewrite IH by done.
  destruct (N.eqb_spec x c); [by subst|done].
Qed.

Lemma esc_plain s : 38 ∉ s -> 60 ∉ s -> esc s = s.
Proof.
  intros H1 H2. unfold esc. rewrite (replaceAllChar_absent 38) by done.
  by apply replaceAllChar_absent.
Qed.
End Catch.

(** C1, as worded, fails: for the one-line snippet [  foo();] the third line
    of the block is the [catch] line, which does not hold the text [foo();]. *)
Lemma applyCatch_third_line_counterexample :
  ~ catch_claim [lit "  foo();"] 0.
Proof.
  intros H. destruct (H _ _ eq_refl eq_refl) as [_ (a & b & Hab)].
  assert (Hinc : includes (trim (lit "  foo();"))
            (lit "  } catch (" ++ editable (lit "Exception") ++ lit " e) {") = true).
  { apply includes_iff. exists a, b. by injection Hab. }
  vm_compute in Hinc. discriminate Hinc.
Qed.

(** C1, amended.  At a valid index [i] the Catch transform replaces the
    targeted line by the five lines of a try/catch block, so the result has
    exactly four lines more; the second line of the block, at index [i + 1],
    is the trimmed text of the replaced line, escaped by [esc] and indented
    one level deeper than the target, and the escaped text is the trimmed
    text itself when the line holds neither [&] nor [<]. *)
Theorem applyCatch_spec (lines : list jsstring) (i : nat) (orig : jsstring) :
  lines !! i = Some orig ->
  exists lines', applyCatch lines i = Some lines' /\
    lines' = take i lines
      ++ [ take_ws orig ++ lit "try {";
           take_ws orig ++ lit "    " ++ esc (trim orig);
           take_ws orig ++ lit "} catch (" ++ editable (lit "Exception") ++ lit " e) {";
           take_ws orig ++ lit "    " ++ lit "// "
             ++ editable (lit "decide: skip/retry/DLQ/translate");
           take_ws orig ++ lit "}" ]
      ++ drop (S i) lines /\
    length lines' = (length lines + 4)%nat /\
    lines' !! (i + 1)%nat = Some (take_ws orig ++ lit "    " ++ esc (trim orig)) /\
    (38 ∉ orig -> 60 ∉ orig -> esc (trim orig) = trim orig).
Proof.
  intros Horig. unfold applyCatch. rewrite Horig. cbn zeta.
  rewrite indent_of_take_ws. unfold splice. rewrite Nat.add_1_r, <- !app_assoc.
  eexists; split; [done|]. split; [done|].
  pose proof (lookup_lt_Some _ _ _ Horig) as Hlt.
  assert (Htake : length (take i lines) = i) by (rewrite length_take; lia).
  repeat split.
  - rewrite !length_app, Htake, length_drop. cbn [length]. lia.
  - rewrite lookup_app_r by lia. rewrite Htake.
    by replace (S i - i)%nat with 1%nat by lia.
  - intros H1 H2. apply esc_plain; intros H%elem_of_trim; done.
Qed.

(** The transform on the second line of the first stage. *)
Lemma applyCatch_spec_witness :
  exists lines', applyCatch (snippet stage_kafka) 1 = Some lines' /\
    length lines' = 7%nat /\
    lines' !! 2%nat
    = Some (lit "        processMessage(record); // may call networkCall()").
Proof.
  destruct (applyCatch_spec (snippet stage_kafka) 1
              (lit "    processMessage(record); // may call networkCall()") eq_refl)
    as (lines' & H & _ & Hlen & Hline & _).
  exists lines'. split; [exact H|]. split; [exact Hlen|exact Hline].
Defined.

Section Groups.
Lemma star_same_place c b s cap cap' k k' :
  same_place_cont k k' ->
  same_place (star c b s cap k) (star c b s cap' k').
Proof.
  intros Hk. revert b; induction s as [|x s IH]; intros b; simpl.
  - by apply Hk.
  - destruct (in_class c x); [|by apply Hk].
    specialize (IH false).
    destruct (star c false s cap k), (star c false s cap' k'); try done.
    by apply Hk.
Qed.

(** Capture groups play no part in where a match is found. *)
Lemma rmatch_erase r st st' k k' :
  m_bol st = m_bol st' -> m_rest st = m_rest st' ->
  same_place_cont k k' ->
  same_place (rmatch r st k) (rmatch (erase r) st' k').
Proof.
  revert st st' k k'.
  induction r as [l|c|c|x|r IH|r1 IH1 r2 IH2|]; intros st st' k k' Hb Hr Hk;
    cbn [rmatch erase]; rewrite <- ?Hb, <- ?Hr.
  - destruct (startsWith l (m_rest st)); [by apply Hk|exact I].
  - by apply star_same_place.
  - destruct (m_rest st) as [|x s]; [exact I|].
    destruct (in_class c x); [by apply star_same_place|exact I].
  - destruct (m_rest st) as [|y s] eqn:E.
    + apply Hk; congruence.
    + assert (Hst : same_place (k st) (k' st')) by (apply Hk; congruence).
      destruct (y =? x); [|exact Hst].
      assert (H1 : same_place (k (MS false s (m_cap st)))
                     (k' (MS false s (m_cap st')))) by by apply Hk.
      destruct (k (MS false s (m_cap st))), (k' (MS false s (m_cap st'))); done.
  - apply IH; [done..|]. intros x x' Hxb Hxr. by apply Hk.
  - apply IH1; [done..|]. intros x x' Hxb Hxr. by apply IH2.
  - destruct (m_bol st) eqn:E; [apply Hk; congruence|exact I].
Qed.

Lemma match_here_erase r b s :
  match match_here r b s, match_here (erase r) b s with
  | Some p, Some p' => p.1 = p'.1
  | None, None => True
  | _, _ => False
  end.
Proof.
  assert (Hk : same_place_cont Some Some) by (by intros x x' ??).
  pose proof (rmatch_erase r (MS b s None) (MS b s None) Some Some
                eq_refl eq_refl Hk) as H.
  unfold match_here.
  destruct (rmatch r _ _), (rmatch (erase r) _ _); simpl in *; try done.
  by destruct H.
Qed.

Lemma search_erase r i s :
  match search r i s, search (erase r) i s with
  | Some m, Some m' => r_index m = r_index m' /\ r_rest m = r_rest m'
  | None, None => True
  | _, _ => False
  end.
Proof.
  revert i; induction s as [|x s IH]; intros i; rewrite !(search_unfold _ i).
  - pose proof (match_here_erase r (bool_decide (i = O)) []) as H.
    destruct (match_here r _ _) as [[??]|], (match_here (erase r) _ _) as [[??]|];
      simpl in *; done.
  - pose proof (match_here_erase r (bool_decide (i = O)) (x :: s)) as H.
    destruct (match_here r _ _) as [[??]|], (match_here (erase r) _ _) as [[??]|];
      simpl in *; try done. apply IH.
Qed.

Lemma test_erase r s : test (erase r) s = test r s.
Proof.
  unfold test, exec. pose proof (search_erase r O s) as H.
  by destruct (search r O s), (search (erase r) O s).
Qed.

(** An expression that starts with literal text matches the same way
    wherever the match starts. *)
Lemma match_here_lit_start l r b s :
  l <> [] ->
  match_here (RSeq (RLit l) r) b s = match_here (RSeq (RLit l) r) true s.
Proof.
  intros Hl. unfold match_here. cbn [rmatch m_bol m_rest m_cap].
  destruct (startsWith l s); [|done].
  by rewrite bool_decide_eq_false_2, !andb_false_r.
Qed.

Lemma test_lit_includes l s : test (RLit l) s = includes l s.
Proof.
  unfold test, exec. generalize O.
  induction s as [|x s IH]; intros i; rewrite search_unfold; unfold match_here;
    cbn [rmatch m_rest includes].
  - by destruct (startsWith l []).
  - destruct (startsWith l (x :: s)); [done|]. apply IH.
Qed.
End Groups.

Section OptionalOf.

(** The shape of a match of [/return\s+(.+);/]. *)
Lemma match_here_return_group_sound b s rest cap :
  match_here re_return_group b s = Some (rest, cap) ->
  exists ws e, s = lit "return" ++ ws ++ e ++ lit ";" ++ rest /\
    cap = Some e /\ ws <> [] /\ spaces ws /\ e <> [] /\ dots e.
Proof.
  unfold match_here, re_return_group. cbn [rmatch m_rest m_bol m_cap in_class].
  destruct (startsWith (lit "return") s) eqn:E1; [|done].
  apply startsWith_inv in E1. destruct (drop (length (lit "return")) s) as [|x s1]; [done|].
  destruct (is_space x) eqn:Hx; [|done].
  destruct (star _ _ _ _ _) as [r|] eqn:E2; [|done]. intros [= <- <-].
  apply star_sound in E2 as (w & rest1 & -> & Hw & E2).
  cbn [rmatch m_rest m_bol m_cap in_class] in E2.
  destruct rest1 as [|y rest1']; [done|].
  destruct (is_dot y) eqn:Hy; [|done].
  apply star_sound in E2 as (w2 & rest2 & -> & Hw2 & E2).
  cbn [rmatch m_rest m_bol m_cap in_class] in E2.
  destruct (startsWith (lit ";") rest2) eqn:E3; [|done].
  apply startsWith_inv in E3. injection E2 as <-. cbn [m_rest m_cap].
  exists (x :: w), (y :: w2). rewrite E1 at 1. rewrite E3 at 1.
  repeat split; try done.
  - f_equal. change (y :: w2 ++ ?t) with ((y :: w2) ++ t).
    rewrite take_app_length'; [done|]. rewrite !length_app. cbn [length]. lia.
  - by constructor.
  - by constructor.
Qed.

Lemma rmatch_seq r1 r2 st k :
  rmatch (RSeq r1 r2) st k = rmatch r1 st (fun st' => rmatch r2 st' k).
Proof. done. Qed.

Lemma rmatch_lit l st k :
  rmatch (RLit l) st k
  = if startsWith l (m_rest st) then
      k (MS (m_bol st && bool_decide (l = [])) (drop (length l) (m_rest st))
            (m_cap st))
    else None.
Proof. done. Qed.

Lemma rmatch_plus c b x s cap k :
  in_class c x = true ->
  rmatch (RPlus c) (MS b (x :: s) cap) k = star c false s cap k.
Proof. intros H. cbn [rmatch m_rest m_cap]. by rewrite H. Qed.

(** [(.+);] takes the text up to the last semicolon of the line. *)
Lemma dot_semi_exact b c x post cap0 :
  dots (c :: x) -> 59 ∉ post ->
  rmatch (RSeq (RGroup (RPlus CDot)) (RLit (lit ";")))
    (MS b ((c :: x) ++ lit ";" ++ post) cap0) Some
  = Some (MS false post (Some (c :: x))).
Proof.
  intros [Hc Hx]%Forall_cons Hpost.
  cbn [rmatch m_rest m_bol m_cap in_class].
  change ((c :: x) ++ ?t) with (c :: x ++ t). cbn iota. rewrite Hc.
  change (lit ";" ++ post) with (59 :: post).
  change (lit ";") with [59].
  rewrite star_first; [|done| |].
  - cbn [rmatch m_rest m_bol m_cap in_class startsWith].
    rewrite N.eqb_refl. cbn [andb drop length]. do 3 f_equal.
    change (c :: x ++ 59 :: post) with ((c :: x) ++ 59 :: post).
    rewrite take_app_length'; [done|]. rewrite !length_app. cbn [length]. lia.
  - intros _. apply star_none. intros b' t Ht.
    cbn [rmatch m_rest m_bol m_cap in_class].
    destruct (startsWith [59] t) eqn:E; [|done].
    apply startsWith_inv in E. exfalso. apply Hpost.
    destruct Ht as [k ->]. rewrite E. apply elem_of_app. right. by left.
  - cbn [rmatch m_rest m_bol m_cap in_class startsWith].
    by rewrite N.eqb_refl.
Qed.

(** The expression is greedy: with the white space, the value and the
    semicolon in plain sight, the value is what the group captures. *)
Lemma match_here_return_group_exact b ws c x post :
  ws <> [] -> spaces ws -> is_space c = false -> dots (c :: x) -> 59 ∉ post ->
  match_here re_return_group b
    (lit "return" ++ ws ++ (c :: x) ++ lit ";" ++ post)
  = Some (post, Some (c :: x)).
Proof.
  intros Hne Hws Hc Hx Hpost.
  unfold match_here, re_return_group.
  rewrite rmatch_seq, rmatch_lit. cbn [m_rest m_bol m_cap].
  rewrite startsWith_app, drop_app_length, rmatch_seq.
  destruct Hws as [|a ws Ha Hws]; [done|].
  change ((a :: ws) ++ ?t) with (a :: ws ++ t).
  rewrite rmatch_plus by done.
  rewrite star_first; [|done|by simpl; rewrite Hc|];
    by rewrite dot_semi_exact.
Qed.

Lemma return_group_bol b s :
  match_here re_return_group b s = match_here re_return_group true s.
Proof. by apply match_here_lit_start. Qed.

Lemma exec_return_group_sound line m :
  exec re_return_group line = Some m ->
  exists ws e,
    line = take (r_index m) line ++ lit "return" ++ ws ++ e ++ lit ";" ++ r_rest m /\
    r_cap m = Some e /\ ws <> [] /\ spaces ws /\ e <> [] /\ dots e /\
    (r_index m <= length line)%nat.
Proof.
  intros H. apply (search_sound return_group_bol) in H
    as (j & -> & Hj & Hm & _). cbn [Nat.add].
  apply match_here_return_group_sound in Hm
    as (ws & e & Hs & Hcap & Hne & Hws & He & Hdots).
  exists ws, e. split; [by rewrite <- Hs, take_drop|].
  repeat split; done.
Qed.

Lemma exec_return_group_exact indent ws c x post :
  spaces indent -> ws <> [] -> spaces ws -> is_space c = false ->
  dots (c :: x) -> 59 ∉ post ->
  exec re_return_group
    (indent ++ lit "return" ++ ws ++ (c :: x) ++ lit ";" ++ post)
  = Some (MR (length indent) post (Some (c :: x))).
Proof.
  intros Hind Hne Hws Hc Hx Hpost. unfold exec.
  rewrite (search_skip return_group_bol (length indent)).
  - rewrite drop_app_length. apply (search_here return_group_bol).
    by apply match_here_return_group_exact.
  - intros j Hj. rewrite drop_app_le by lia.
    destruct (drop j indent) as [|a d] eqn:E.
    { apply (f_equal length) in E. rewrite length_drop in E. simpl in E. lia. }
    assert (Ha : is_space a = true).
    { assert (Hin : a ∈ indent).
      { rewrite <- (take_drop j indent), E. apply elem_of_app. right. by left. }
      by apply (proj1 (Forall_forall _ _) Hind) in Hin. }
    unfold match_here, re_return_group. cbn [rmatch m_rest m_bol m_cap].
    destruct (startsWith _ _) eqn:E1; [|done].
    apply startsWith_inv in E1.
    change (lit "return") with (114 :: lit "eturn") in E1.
    simpl in E1. injection E1 as -> _. done.
  - rewrite length_app. lia.
Qed.

Lemma return_empty_bol b s :
  match_here re_return_empty b s = match_here re_return_empty true s.
Proof. by apply match_here_lit_start. Qed.

(** A line that returns [Optional.empty()] mentions [Optional.]. *)
Lemma return_empty_optional line :
  test re_return_empty line = true -> test re_optional line = true.
Proof.
  intros H.
  apply (test_true_iff return_empty_bol) in H as (j & Hj & [[rest cap] Hm]).
  unfold re_optional. rewrite test_lit_includes. apply includes_iff.
  unfold match_here, re_return_empty in Hm.
  cbn [rmatch m_rest m_bol m_cap in_class] in Hm.
  destruct (startsWith (lit "return") (drop j line)) eqn:E1; [|done].
  apply startsWith_inv in E1.
  destruct (drop (length (lit "return")) (drop j line)) as [|x s1]; [done|].
  destruct (is_space x); [|done].
  destruct (star _ _ _ _ _) as [r|] eqn:E2; [|done].
  apply star_sound in E2 as (w & rest1 & -> & _ & E2).
  cbn [rmatch m_rest m_bol m_cap] in E2.
  destruct (startsWith (lit "Optional.empty()") rest1) eqn:E3; [|done].
  apply startsWith_inv in E3.
  exists (take j line ++ lit "return" ++ x :: w),
    (lit "empty()" ++ drop (length (lit "Optional.empty()")) rest1).
  rewrite <- (take_drop j line) at 1. rewrite E1 at 1. rewrite E3 at 1.
  by rewrite <- !app_assoc.
Qed.

Lemma return_value_bol b s :
  match_here re_return_value b s = match_here re_return_value true s.
Proof. by apply match_here_lit_start. Qed.

Lemma match_here_return_value_complete b ws e post :
  ws <> [] -> spaces ws -> e <> [] -> dots e ->
  is_Some (match_here re_return_value b
             (lit "return" ++ ws ++ e ++ lit ";" ++ post)).
Proof.
  intros Hne Hws He Hdots.
  assert (H : is_Some (rmatch re_return_value
              (MS b (lit "return" ++ ws ++ e ++ lit ";" ++ post) None) Some)).
  { unfold re_return_value.
    rewrite rmatch_seq, rmatch_lit. cbn [m_rest m_bol m_cap].
    rewrite startsWith_app, drop_app_length, rmatch_seq.
    destruct Hws as [|a ws Ha Hws]; [done|].
    change ((a :: ws) ++ ?t) with (a :: ws ++ t).
    rewrite rmatch_plus by done.
    apply star_complete; [done|].
    rewrite rmatch_seq.
    destruct Hdots as [|c e Hc Hdots]; [done|].
    change ((c :: e) ++ ?t) with (c :: e ++ t).
    rewrite rmatch_plus by done.
    apply star_complete; [done|].
    rewrite rmatch_lit. cbn [m_rest m_bol m_cap]. by rewrite startsWith_app. }
  unfold match_here. by destruct H as [r ->].
Qed.

(** After the white space, a value of the same line and a semicolon are
    always accepted. *)
Lemma group_semi_complete b e post cap :
  e <> [] -> dots e ->
  is_Some (rmatch (RSeq (RGroup (RPlus CDot)) (RLit (lit ";")))
             (MS b (e ++ lit ";" ++ post) cap) Some).
Proof.
  intros He Hdots. destruct Hdots as [|c e Hc Hdots]; [done|].
  cbn [rmatch m_rest m_bol m_cap]. change ((c :: e) ++ ?t) with (c :: e ++ t).
  cbn iota. cbn [in_class]. rewrite Hc.
  apply star_complete; [done|].
  cbn [rmatch m_rest m_bol m_cap]. by rewrite startsWith_app.
Qed.

(** A match of [/return\s+(.+);/] at a given place takes the longest white
    space after which the rest matches, and then the longest value. *)
Lemma match_here_return_group_greedy b s rest cap :
  match_here re_return_group b s = Some (rest, cap) ->
  exists ws e, s = lit "return" ++ ws ++ e ++ lit ";" ++ rest /\
    cap = Some e /\ ws <> [] /\ spaces ws /\ e <> [] /\ dots e /\
    forall ws' e' rest',
      s = lit "return" ++ ws' ++ e' ++ lit ";" ++ rest' ->
      ws' <> [] -> spaces ws' -> e' <> [] -> dots e' ->
      (length ws' <= length ws)%nat /\
      (length ws' = length ws -> (length e' <= length e)%nat).
Proof.
  unfold match_here, re_return_group. cbn [rmatch m_rest m_bol m_cap in_class].
  destruct (startsWith (lit "return") s) eqn:E1; [|done].
  apply startsWith_inv in E1. destruct (drop (length (lit "return")) s) as [|x s1]; [done|].
  destruct (is_space x) eqn:Hx; [|done].
  destruct (star _ _ _ _ _) as [r|] eqn:E2; [|done]. intros [= <- <-].
  apply star_greedy in E2 as (w & rest1 & -> & Hw & E2 & Hmax1).
  cbn [rmatch m_rest m_bol m_cap in_class] in E2.
  destruct rest1 as [|y rest1']; [done|].
  destruct (is_dot y) eqn:Hy; [|done].
  apply star_greedy in E2 as (w2 & rest2 & -> & Hw2 & E2 & Hmax2).
  cbn [rmatch m_rest m_bol m_cap in_class] in E2.
  destruct (startsWith (lit ";") rest2) eqn:E3; [|done].
  apply startsWith_inv in E3. injection E2 as <-. cbn [m_rest m_cap].
  assert (Hcap : take (length (y :: w2 ++ rest2) - length rest2)
                   (y :: w2 ++ rest2) = y :: w2).
  { change (y :: w2 ++ ?t) with ((y :: w2) ++ t).
    rewrite take_app_length'; [done|]. rewrite !length_app. cbn [length]. lia. }
  exists (x :: w), (y :: w2). rewrite E1 at 1. rewrite E3 at 1.
  split; [done|]. split; [f_equal; exact Hcap|].
  split; [done|]. split; [by constructor|]. split; [done|]. split; [by constructor|].
  intros ws' e' rest' Hs Hne' Hws' He' Hdots'.
  rewrite E1 in Hs at 1. apply app_inv_head in Hs.
  destruct ws' as [|x' ws']; [done|]. injection Hs as <- Hs.
  apply Forall_cons in Hws' as [_ Hws'].
  assert (Hle : (length ws' <= length w)%nat).
  { destruct (decide (length ws' <= length w)%nat) as [|Hgt]; [done|]. exfalso.
    pose proof (Hmax1 ws' (e' ++ lit ";" ++ rest') Hs Hws' ltac:(lia)) as Hnone.
    pose proof (group_semi_complete (false && empty_b ws') e' rest' None He' Hdots') as Hsome.
    destruct Hsome as [r0 Hr].
    assert (Habs : Some r0 = None) by (rewrite <- Hr; exact Hnone). done. }
  cbn [length]. split; [lia|]. intros Hlen.
  apply app_inj_1 in Hs as [<- Hs]; [|lia].
  destruct e' as [|y' e']; [done|]. injection Hs as <- Hs.
  apply Forall_cons in Hdots' as [_ Hdots'].
  destruct (decide (length e' <= length w2)%nat) as [|Hgt]; [cbn [length]; lia|]. exfalso.
  pose proof (Hmax2 e' (lit ";" ++ rest') Hs Hdots' ltac:(lia)) as Hnone.
  cbn [rmatch m_rest m_bol m_cap] in Hnone.
  by rewrite startsWith_app in Hnone.
Qed.

(** The match that [exec] finds is the leftmost one. *)
Lemma exec_return_group_greedy line m :
  exec re_return_group line = Some m ->
  exists ws e,
    return_stmt line (take (r_index m) line) ws e (r_rest m) /\
    r_cap m = Some e /\ (r_index m <= length line)%nat /\
    forall pre' ws' e' post', return_stmt line pre' ws' e' post' ->
      (r_index m <= length pre')%nat /\
      (length pre' = r_index m ->
         (length ws' <= length ws)%nat /\
         (length ws' = length ws -> (length e' <= length e)%nat)).
Proof.
  intros H. apply (search_sound return_group_bol) in H
    as (j & -> & Hj & Hm & Hbefore). cbn [Nat.add].
  apply match_here_return_group_greedy in Hm
    as (ws & e & Hs & Hcap & Hne & Hws & He & Hdots & Hmax).
  exists ws, e. split; [|split; [done|split; [done|]]].
  { split; [by rewrite <- Hs, take_drop|done]. }
  intros pre' ws' e' post' (Hline & Hne' & Hws' & He' & Hdots').
  assert (Hdrop : drop (length pre') line
                  = lit "return" ++ ws' ++ e' ++ lit ";" ++ post').
  { by rewrite Hline, drop_app_length. }
  assert (Hle : (j <= length pre')%nat).
  { destruct (decide (j <= length pre')%nat) as [|Hgt]; [done|]. exfalso.
    pose proof (Hbefore (length pre') ltac:(lia)) as Hnone.
    pose proof (match_here_erase re_return_group true (drop (length pre') line)) as Her.
    rewrite Hnone in Her.
    change (erase re_return_group) with re_return_value in Her.
    pose proof (match_here_return_value_complete true ws' e' post' Hne' Hws' He' Hdots')
      as [p Hp].
    rewrite Hdrop in Her. by rewrite Hp in Her. }
  split; [done|]. intros Hlen. rewrite Hlen in Hdrop. by apply (Hmax ws' e' post').
Qed.

(** The test of the Optional-return transform, in terms of the text. *)
Lemma test_return_value_iff line :
  test re_return_value line = true <->
  exists pre ws e post, return_stmt line pre ws e post.
Proof.
  rewrite (test_true_iff return_value_bol). split.
  - intros (j & Hj & Hm).
    pose proof (match_here_erase re_return_group true (drop j line)) as Herase.
    change (erase re_return_group) with re_return_value in Herase.
    destruct Hm as [p Hp]. rewrite Hp in Herase.
    destruct (match_here re_return_group true (drop j line)) as [[rest cap]|] eqn:E;
      [|done].
    apply match_here_return_group_sound in E
      as (ws & e & Hs & _ & Hne & Hws & He & Hdots).
    exists (take j line), ws, e, rest. split; [|done].
    by rewrite <- Hs, take_drop.
  - intros (pre & ws & e & post & -> & Hne & Hws & He & Hdots).
    exists (length pre). split.
    + rewrite length_app. lia.
    + rewrite drop_app_length. by apply match_here_return_value_complete.
Qed.
End OptionalOf.

(** C3, as worded, fails on a line that returns a plain value and mentions
    [Optional.] in a comment: the value is not wrapped, yet the line is not
    rewritten and a sample line is inserted after it. *)
Lemma applyOptionalOf_comment_counterexample :
  ~ optional_claim [lit "    return x; // not Optional.empty()"] 0.
Proof.
  intros H.
  destruct (H (lit "    ") (lit " ") 120 [] (lit " // not Optional.empty()")
              (default [] (applyOptionalOf
                 [lit "    return x; // not Optional.empty()"] 0))
              eq_refl) as [Hlen _];
    [repeat constructor|discriminate|repeat constructor|reflexivity
    |repeat constructor| |reflexivity|reflexivity|].
  - intros Hin. apply list_elem_of_In in Hin. vm_compute in Hin.
    repeat (destruct Hin as [Hin|Hin]; [discriminate Hin|]). exact Hin.
  - vm_compute in Hlen. discriminate Hlen.
Qed.

(** C3, amended.  At a valid index the Optional-return transform does one of
    two things, and what decides is the whole line, not the returned value.
    When the line holds a statement [return <expr>;] ([return], white space,
    a non-empty text without line terminators, [;]) and holds [Optional.]
    nowhere, the statement is rewritten in place to
    [return Optional.of(<expr>);] and the line count is unchanged; the
    statement is the leftmost one, with the longest white space and then the
    longest [<expr>] that the line allows, so on a line without line
    terminators [<expr>] runs up to the last [;].  For every other line, be it without such a statement or
    with [Optional.] anywhere in it, a comment included, the sample line is
    inserted right after the target, indented one level deeper, and the
    target is left as it is; a line that returns [Optional.empty()] is
    such a line.  For a line that is exactly an indentation, [return], white
    space, a value and [;] (with no [;] after it), the value is what gets
    wrapped. *)
Theorem applyOptionalOf_spec (lines : list jsstring) (i : nat) (line : jsstring) :
  lines !! i = Some line ->
  exists lines', applyOptionalOf lines i = Some lines' /\
    ((exists pre ws e post, return_stmt line pre ws e post) ->
     includes (lit "Optional.") line = false ->
     exists pre ws e post, return_stmt line pre ws e post /\
       (forall pre' ws' e' post', return_stmt line pre' ws' e' post' ->
          (length pre <= length pre')%nat /\
          (length pre' = length pre ->
             (length ws' <= length ws)%nat /\
             (length ws' = length ws -> (length e' <= length e)%nat))) /\
       lines' = <[i := pre ++ lit "return Optional.of(" ++ e ++ lit ");" ++ post]> lines /\
       length lines' = length lines) /\
    (~ (exists pre ws e post, return_stmt line pre ws e post) \/
     includes (lit "Optional.") line = true ->
     lines' = take (S i) lines
                ++ [take_ws line ++ lit "    " ++ lit "return Optional.of("
                      ++ lit "<span contenteditable=" ++ dq ++ lit "true" ++ dq
                      ++ lit " class=" ++ dq ++ lit "ce" ++ dq
                      ++ lit ">value</span>" ++ lit ");"]
                ++ drop (S i) lines /\
     length lines' = S (length lines) /\
     lines' !! i = Some line) /\
    (test re_return_empty line = true ->
     includes (lit "Optional.") line = true) /\
    (forall indent ws c x post,
       line = indent ++ lit "return" ++ ws ++ (c :: x) ++ lit ";" ++ post ->
       spaces indent -> ws <> [] -> spaces ws ->
       is_space c = false -> dots (c :: x) -> 59 ∉ post ->
       includes (lit "Optional.") line = false ->
       lines' = <[i := indent ++ lit "return Optional.of(" ++ (c :: x)
                         ++ lit ");" ++ post]> lines).
Proof.
  intros Hline. pose proof (lookup_lt_Some _ _ _ Hline) as Hlt.
  assert (Hinsert : forall y : jsstring,
            length (take (S i) lines ++ [y] ++ drop (S i) lines) = S (length lines)).
  { intros y. rewrite !length_app, length_take, length_drop. cbn [length]. lia. }
  assert (Hempty : test re_return_empty line = true ->
            includes (lit "Optional.") line = true).
  { intros H%return_empty_optional. unfold re_optional in H.
    by rewrite test_lit_includes in H. }
  unfold applyOptionalOf. rewrite Hline. cbn zeta.
  unfold splice. rewrite indent_of_take_ws, Nat.add_0_r, Nat.add_1_r.
  unfold re_optional at 1. rewrite test_lit_includes.
  destruct (test re_return_value line) eqn:Hval;
    [destruct (includes (lit "Optional.") line) eqn:Hopt|]; cbn [andb negb].
  - (* a statement, and [Optional.] somewhere *)
    eexists; split; [done|]. split; [done|]. split; [|split; [done|]].
    + intros _. split; [by rewrite <- app_assoc|]. split; [apply Hinsert|].
      rewrite lookup_app_l by (rewrite length_take; lia).
      by rewrite lookup_take_lt by lia.
    + intros indent ws c x post _ _ _ _ _ _ _ H. congruence.
  - (* a statement, and no [Optional.] *)
    eexists; split; [done|]. split; [|split; [|split; [done|]]].
    + intros _ _.
      change re_return_value with (erase re_return_group) in Hval.
      rewrite test_erase in Hval. unfold test in Hval. unfold replace.
      destruct (exec re_return_group line) as [m|] eqn:E; [|done].
      destruct (exec_return_group_greedy _ _ E)
        as (ws & e & Hstmt & Hcap & Hidx & Hmax).
      exists (take (r_index m) line), ws, e, (r_rest m).
      assert (Hpre : length (take (r_index m) line) = r_index m)
        by (rewrite length_take; lia).
      split; [done|]. split; [by rewrite Hpre|]. split.
      * rewrite Hcap. cbn [flat_map expand default]. by rewrite <- !app_assoc.
      * by rewrite length_insert.
    + intros [Hno|H]; [|congruence]. exfalso. apply Hno.
      by apply test_return_value_iff.
    + intros indent ws c x post -> Hind Hne Hws Hc Hx Hpost Hinc.
      unfold replace. rewrite exec_return_group_exact by done.
      cbn [r_index r_cap r_rest flat_map expand default].
      by rewrite take_app_length, <- !app_assoc.
  - (* no statement *)
    eexists; split; [done|]. split; [|split; [|split; [done|]]].
    + intros Hstmt%test_return_value_iff. congruence.
    + intros _. split; [by rewrite <- app_assoc|]. split; [apply Hinsert|].
      rewrite lookup_app_l by (rewrite length_take; lia).
      by rewrite lookup_take_lt by lia.
    + intros indent ws c x post -> Hind Hne Hws Hc Hx Hpost Hinc. exfalso.
      change re_return_value with (erase re_return_group) in Hval.
      rewrite test_erase in Hval. unfold test in Hval.
      by rewrite exec_return_group_exact in Hval.
Qed.

(** The transform on the return line of the third stage, and on a line whose
    comment mentions [Optional.]. *)
Lemma applyOptionalOf_spec_witness :
  exists lines', applyOptionalOf (snippet stage_controller) 2 = Some lines' /\
    lines' = <[2%nat := lit "    return Optional.of(ResponseEntity.ok(service.fetch(id)));"]>
               (snippet stage_controller).
Proof.
  destruct (applyOptionalOf_spec (snippet stage_controller) 2
              (lit "    return ResponseEntity.ok(service.fetch(id));") eq_refl)
    as (lines' & H & _ & _ & _ & Hexact).
  exists lines'. split; [exact H|].
  apply (Hexact (lit "    ") (lit " ") 82 (lit "esponseEntity.ok(service.fetch(id))") []);
    try reflexivity; try (by vm_compute); try (repeat constructor).
  apply not_elem_of_nil.
Defined.

Section Progression.

Lemma stage_keys_distinct : NoDup (key <$> STAGES).
Proof. refine (bool_decide_unpack _ _). by vm_compute. Qed.

Lemma stage_key_inj i j s s' :
  STAGES !! i = Some s -> STAGES !! j = Some s' -> key s = key s' -> i = j.
Proof.
  intros Hi Hj Hk.
  apply (NoDup_lookup _ i j (key s) stage_keys_distinct);
    rewrite list_lookup_fmap; [by rewrite Hi|by rewrite Hj, Hk].
Qed.

Lemma initial_lines_lookup i s :
  STAGES !! i = Some s -> Lenient.initial_lines !! key s = Some (snippet s).
Proof.
  destruct i as [|[|[|[|[|i]]]]]; intros [= <-]; by vm_compute.
Qed.

(** *** The lenient engine *)

Lemma lenient_applyActionAt_index a i st st' :
  Lenient.applyActionAt a i st = Some st' ->
  Lenient.stageIdx st' = Lenient.stageIdx st.
Proof.
  unfold Lenient.applyActionAt. intros H.
  destruct (STAGES !! _) as [stage|]; [|done]. simpl in H.
  destruct (Lenient.linesByStage st !! _) as [lines|]; [|done]. simpl in H.
  destruct (if bool_decide _ then _ else _) as [working|]; [|done].
  simpl in H. by injection H as <-.
Qed.

Lemma lenient_step_move st e :
  (Lenient.stageIdx st < length STAGES)%nat ->
  index_move (lenient_is_next e) (lenient_is_restart e) (lenient_can_advance st)
    (Lenient.stageIdx st) (Lenient.stageIdx (Lenient.step st e)).
Proof.
  intros Hidx. unfold Lenient.step, index_move, lenient_can_advance.
  destruct e as [a i| | |]; cbn [Lenient.handle].
  - destruct (Lenient.applyActionAt a i st) as [st'|] eqn:E; [|by left].
    left. by eapply lenient_applyActionAt_index.
  - unfold Lenient.next. destruct (STAGES !! _) as [stage|]; [|by left].
    cbn [mbind option_bind]. destruct (Lenient.canAdvance _); [|by left].
    cbn [negb]. case_bool_decide; [|by left].
    right; left. simpl in *. repeat split; lia.
  - unfold Lenient.resetStage. destruct (STAGES !! _); by left.
  - right; right. by split.
Qed.

Lemma index_move_bound n r c i i' :
  (i < length STAGES)%nat -> index_move n r c i i' -> (i' < length STAGES)%nat.
Proof. intros Hi [ -> | [(_ & _ & _ & H) | [_ ->] ] ]; [done|done|simpl; lia]. Qed.

Lemma lenient_run_snoc st es e :
  Lenient.run st (es ++ [e]) = Lenient.step (Lenient.run st es) e.
Proof. unfold Lenient.run. by rewrite foldl_app. Qed.

Lemma lenient_reachable_index st :
  Lenient.reachable st -> (Lenient.stageIdx st < length STAGES)%nat.
Proof.
  intros [es ->]. induction es as [|e es IH] using rev_ind.
  - simpl. lia.
  - rewrite lenient_run_snoc.
    eapply index_move_bound; [exact IH|by apply lenient_step_move].
Qed.

(** *** The strict engine *)

Lemma strict_step_move st e :
  (Strict.stageIdx st < length STAGES)%nat ->
  index_move (strict_is_next e) (strict_is_restart e) (strict_can_advance st)
    (Strict.stageIdx st) (Strict.stageIdx (Strict.step st e)).
Proof.
  intros Hidx. unfold Strict.step, index_move, strict_can_advance.
  destruct e as [a now| | |v|]; cbn [Strict.handle].
  - unfold Strict.applyAction. destruct (STAGES !! _); by left.
  - unfold Strict.goNext. destruct (STAGES !! _) as [stage|]; [|by left].
    cbn [mbind option_bind]. destruct (Strict.ok _); [|by left].
    cbn [negb]. case_bool_decide; [|by left].
    right; left. simpl in *. repeat split; lia.
  - right; right. by split.
  - by left.
  - unfold Strict.needHint. destruct (STAGES !! _); by left.
Qed.

Lemma strict_run_snoc st es e :
  Strict.run st (es ++ [e]) = Strict.step (Strict.run st es) e.
Proof. unfold Strict.run. by rewrite foldl_app. Qed.

Lemma strict_reachable_index st :
  Strict.reachable st -> (Strict.stageIdx st < length STAGES)%nat.
Proof.
  intros [es ->]. induction es as [|e es IH] using rev_ind.
  - simpl. lia.
  - rewrite strict_run_snoc.
    eapply index_move_bound; [exact IH|by apply strict_step_move].
Qed.
End Progression.

(** C5.  When the advance is requested while the active stage cannot be
    left, in either engine, the stage index and every other part of the state
    stay as they are and exactly one entry is appended to the log: the text
    [Hint for <title>: <hint>], which holds the hint of the stage. *)
Theorem advance_refused (ls : Lenient.state) (ss : Strict.state)
    (lstage sstage : Stage) :
  STAGES !! Lenient.stageIdx ls = Some lstage ->
  lenient_can_advance ls = false ->
  STAGES !! Strict.stageIdx ss = Some sstage ->
  strict_can_advance ss = false ->
  Lenient.next ls
  = Some (Lenient.State (Lenient.stageIdx ls) (Lenient.linesByStage ls)
            (Lenient.appliedCounts ls) (Lenient.log ls ++ [hint_entry lstage])) /\
  Strict.goNext ss
  = Some (Strict.State (Strict.stageIdx ss) (Strict.applied ss)
            (Strict.log ss ++ [hint_entry sstage])
            (Strict.customException ss) (Strict.showBest ss)) /\
  includes (hint lstage) (hint_entry lstage) = true /\
  includes (hint sstage) (hint_entry sstage) = true.
Proof.
  unfold lenient_can_advance, strict_can_advance.
  intros Hl Hlc Hs Hsc. rewrite Hl in Hlc. rewrite Hs in Hsc.
  assert (Hinc : forall s, includes (hint s) (hint_entry s) = true).
  { intros s. apply includes_iff.
    exists (lit "Hint for " ++ title s ++ lit ": "), [].
    unfold hint_entry. by rewrite app_nil_r, <- !app_assoc. }
  repeat split; [| |apply Hinc..].
  - unfold Lenient.next. rewrite Hl. cbn [mbind option_bind]. by rewrite Hlc.
  - unfold Strict.goNext. rewrite Hs. cbn [mbind option_bind]. by rewrite Hsc.
Qed.

(** The first click on Next, before any action. *)
Lemma advance_refused_witness :
  Lenient.log (Lenient.step Lenient.init Lenient.NextClicked) = [hint_entry stage_kafka] /\
  Strict.log (Strict.step Strict.init Strict.NextClicked) = [hint_entry stage_kafka].
Proof.
  destruct (advance_refused Lenient.init Strict.init stage_kafka stage_kafka
              eq_refl eq_refl eq_refl eq_refl) as (Hl & Hs & _).
  unfold Lenient.step, Strict.step, Lenient.handle, Strict.handle.
  rewrite Hl, Hs. split; reflexivity.
Defined.

(** C6.  In every reachable state of either engine the stage index is a
    valid index into the registry.  One step leaves it where it is, moves it
    one forward (only the advance does, only when the stage can be left, and
    never past the last stage), or sets it to 0 (only the restart does).  A
    successful advance adds one on a stage that is not the last; on the last
    stage it leaves the index and marks the end (the completion message in
    the lenient engine, the reveal flag in the strict one).  The restart sets
    the index to 0. *)
Theorem stage_index_progression (ls : Lenient.state) (le : Lenient.event)
    (ss : Strict.state) (se : Strict.event) :
  Lenient.reachable ls -> Strict.reachable ss ->
  ((Lenient.stageIdx ls < length STAGES)%nat /\
   index_move (lenient_is_next le) (lenient_is_restart le) (lenient_can_advance ls)
     (Lenient.stageIdx ls) (Lenient.stageIdx (Lenient.step ls le)) /\
   (lenient_can_advance ls = true ->
      Lenient.step ls Lenient.NextClicked
      = if bool_decide (Lenient.stageIdx ls < length STAGES - 1)%nat then
          Lenient.State (Lenient.stageIdx ls + 1) (Lenient.linesByStage ls)
            (Lenient.appliedCounts ls) (Lenient.log ls)
        else
          Lenient.State (Lenient.stageIdx ls) (Lenient.linesByStage ls)
            (Lenient.appliedCounts ls)
            (Lenient.log ls ++ [Lenient.completion_message])) /\
   Lenient.stageIdx (Lenient.step ls Lenient.RestartClicked) = O) /\
  ((Strict.stageIdx ss < length STAGES)%nat /\
   index_move (strict_is_next se) (strict_is_restart se) (strict_can_advance ss)
     (Strict.stageIdx ss) (Strict.stageIdx (Strict.step ss se)) /\
   (strict_can_advance ss = true ->
      Strict.step ss Strict.NextClicked
      = if bool_decide (Strict.stageIdx ss < length STAGES - 1)%nat then
          Strict.State (Strict.stageIdx ss + 1) (Strict.applied ss)
            (Strict.log ss) (Strict.customException ss) (Strict.showBest ss)
        else
          Strict.State (Strict.stageIdx ss) (Strict.applied ss)
            (Strict.log ss) (Strict.customException ss) true) /\
   Strict.stageIdx (Strict.step ss Strict.RestartClicked) = O).
Proof.
  intros Hl%lenient_reachable_index Hs%strict_reachable_index.
  split; (split; [done|]); (split; [by apply lenient_step_move || by apply strict_step_move|]);
    (split; [|done]).
  - unfold lenient_can_advance, Lenient.step, Lenient.handle, Lenient.next.
    destruct (STAGES !! _) as [stage|]; [|done]. intros Hc.
    cbn [mbind option_bind]. rewrite Hc. cbn [negb]. by case_bool_decide.
  - unfold strict_can_advance, Strict.step, Strict.handle, Strict.goNext.
    destruct (STAGES !! _) as [stage|]; [|done]. intros Hc.
    cbn [mbind option_bind]. rewrite Hc. cbn [negb]. by case_bool_decide.
Qed.

(** The initial states are reachable. *)
Lemma stage_index_progression_witness :
  (Lenient.stageIdx Lenient.init < length STAGES)%nat /\
  (Strict.stageIdx Strict.init < length STAGES)%nat.
Proof.
  destruct (stage_index_progression Lenient.init Lenient.NextClicked Strict.init Strict.NextClicked)
    as [[Hl _] [Hs _]].
  - exists []. reflexivity.
  - exists []. reflexivity.
  - split; [exact Hl|exact Hs].
Defined.

(** C7, as worded, fails in the strict engine: the name typed into the text
    field is part of the state of the session, and the restart leaves it. *)
Lemma reset_custom_name_counterexample :
  ~ restart_claim [Strict.NameEdited (lit "Boom")].
Proof.
  intros H. apply (f_equal Strict.customException) in H.
  vm_compute in H. discriminate H.
Qed.

(** C7, amended.  From any state the restart of the lenient engine gives the
    initial state back: the stage index, the lines of every stage, which are
    its template, the counts and the log.  The restart of the strict engine
    gives back the initial stage index, applied-action records, log and
    reveal flag, and leaves the text of the custom exception field as typed:
    the state after it is the initial one exactly when that text is the
    initial one. *)
Theorem resetAll_restores (ls : Lenient.state) (ss : Strict.state) :
  Lenient.resetAll ls = Some Lenient.init /\
  Forall (fun s => Lenient.linesByStage Lenient.init !! key s = Some (snippet s))
    STAGES /\
  Lenient.appliedCounts Lenient.init = ∅ /\
  exists ss', Strict.reset ss = Some ss' /\
    Strict.stageIdx ss' = Strict.stageIdx Strict.init /\
    Strict.applied ss' = Strict.applied Strict.init /\
    Strict.log ss' = Strict.log Strict.init /\
    Strict.showBest ss' = Strict.showBest Strict.init /\
    Strict.customException ss' = Strict.customException ss /\
    (ss' = Strict.init <->
     Strict.customException ss = Strict.customException Strict.init).
Proof.
  split; [done|]. split; [|split; [done|]].
  - apply Forall_lookup. intros i s Hs. by eapply initial_lines_lookup.
  - eexists; split; [done|]. repeat split; try done.
    + by intros [= ->].
    + cbn [Strict.customException Strict.init]. by intros ->.
Qed.

(** C8.  Whatever was applied before, resetting the active stage sets its
    lines to its template, which is what they were initially, sets its count
    to zero, appends one log entry and leaves the stage index. *)
Theorem resetStage_restores (st : Lenient.state) (stage : Stage) :
  STAGES !! Lenient.stageIdx st = Some stage ->
  exists st', Lenient.resetStage st = Some st' /\
    Lenient.linesByStage st' !! key stage = Some (snippet stage) /\
    Lenient.linesByStage st' !! key stage
      = Lenient.linesByStage Lenient.init !! key stage /\
    Lenient.appliedCounts st' !! key stage = Some 0 /\
    Lenient.log st' = Lenient.log st ++ [lit "Reset " ++ title stage] /\
    Lenient.stageIdx st' = Lenient.stageIdx st /\
    Lenient.canAdvance (default 0 (Lenient.appliedCounts st' !! key stage)) = false.
Proof.
  intros Hs. unfold Lenient.resetStage. rewrite Hs. cbn [mbind option_bind].
  eexists; split; [done|]. cbn [Lenient.linesByStage Lenient.appliedCounts
    Lenient.log Lenient.stageIdx].
  rewrite !lookup_insert_eq.
  repeat split; try done.
  symmetry. by eapply initial_lines_lookup.
Qed.

(** A catch on the first stage, then the stage is reset. *)
Lemma resetStage_restores_witness :
  Lenient.linesByStage
    (Lenient.step (Lenient.step Lenient.init (Lenient.Dropped Lenient.id_catch 1))
       Lenient.ResetStageClicked) !! key stage_kafka
  = Some (snippet stage_kafka).
Proof.
  destruct (resetStage_restores
              (Lenient.step Lenient.init (Lenient.Dropped Lenient.id_catch 1))
              stage_kafka eq_refl) as (st' & H & Hlines & _).
  unfold Lenient.step at 1. cbn [Lenient.handle]. rewrite H. exact Hlines.
Defined.

Section StrictScore.
Import Strict.

Lemma elem_of_used_of st s u :
  u ∈ used_of st s <-> exists t, default ∅ (applied st !! key s) !! t = Some u.
Proof.
  unfold used_of. rewrite list_elem_of_fmap. split.
  - intros ([t u'] & -> & H%elem_of_map_to_list). by exists t.
  - intros [t H]. exists (t, u). split; [done|]. by apply elem_of_map_to_list.
Qed.

Lemma ok_iff st s :
  ok (scoreStage st s) = true <-> forall k, k ∈ expectedKeys s -> has st s k.
Proof.
  unfold scoreStage. cbn [ok]. rewrite forallb_forall. unfold has.
  split; intros H k Hk.
  - apply list_elem_of_In in Hk. apply H in Hk.
    apply existsb_exists in Hk as (u & Hu & Hm). exists u.
    by rewrite list_elem_of_In.
  - apply list_elem_of_In in Hk. destruct (H k Hk) as (u & Hu & Hm).
    apply existsb_exists. exists u. by rewrite <- list_elem_of_In.
Qed.

(** What is recorded for a drop counts for the action that was dropped and
    for no other, whatever the custom exception name is. *)
Lemma matches_chosen k a ce :
  is_action_id k -> is_action_id a ->
  matches_id k
    (if bool_decide (a = id_throw) && negb (bool_decide (ce = []))
     then lit "throw:" ++ ce else a) = true
  <-> k = a.
Proof.
  intros Hk Ha. unfold matches_id.
  destruct (bool_decide (a = id_throw) && negb (bool_decide (ce = []))) eqn:E.
  - apply andb_true_iff in E as [E _]. apply bool_decide_eq_true in E. subst a.
    destruct Hk as [ -> | [ -> | -> ] ].
    + change (id_throw ++ lit ":") with (lit "throw:").
      rewrite startsWith_app, orb_true_r. done.
    + split; [|intros H; by vm_compute in H].
      intros [H|H]%orb_true_iff; [apply bool_decide_eq_true in H|];
        by vm_compute in H.
    + split; [|intros H; by vm_compute in H].
      intros [H|H]%orb_true_iff; [apply bool_decide_eq_true in H|];
        by vm_compute in H.
  - clear E. destruct Hk as [ -> | [ -> | -> ] ], Ha as [ -> | [ -> | -> ] ]; by vm_compute.
Qed.
End StrictScore.

Section StrictInvariant.
Import Strict.

Lemma has_applied st st' s k :
  applied st' = applied st -> has st' s k <-> has st s k.
Proof.
  intros H. unfold has. setoid_rewrite elem_of_used_of. by rewrite H.
Qed.

Lemma inv_same_applied st st' h T :
  applied st' = applied st -> inv st h T -> inv st' h T.
Proof.
  intros H [H1 H2]. split.
  - intros s k Hk. rewrite has_applied by done. by apply H1.
  - intros s t. rewrite H. apply H2.
Qed.

Lemma inv_weaken st h T t : inv st h T -> inv st h (t :: T).
Proof.
  intros [H1 H2]. split; [done|]. intros s t' Ht'. right. by eapply H2.
Qed.

(** A drop at a time that the record has not seen adds the action that was
    dropped to what the stage has, and takes nothing away. *)
Lemma inv_drop st h T a now stg :
  inv st h T -> is_action_id a -> now ∉ T ->
  STAGES !! stageIdx st = Some stg ->
  inv (step st (Dropped a now)) ((key stg, a) :: h) (now :: T).
Proof.
  intros [H1 H2] Ha Hnow Hstg.
  unfold step, handle, applyAction. rewrite Hstg.
  cbn [mbind option_bind default from_option id].
  set (chosen := if bool_decide (a = id_throw) && negb (bool_decide (customException st = []))
                 then lit "throw:" ++ customException st else a).
  set (rec := default ∅ (applied st !! key stg)).
  assert (Hfresh : rec !! now = None).
  { destruct (rec !! now) eqn:E; [|done]. exfalso. apply Hnow.
    apply (H2 stg). fold rec. by rewrite E. }
  split.
  - intros s k Hk. rewrite elem_of_cons, <- (H1 s k Hk).
    unfold has. setoid_rewrite elem_of_used_of. cbn [applied].
    destruct (decide (key s = key stg)) as [Heq|Hne].
    + rewrite Heq, lookup_insert_eq. cbn [default from_option id]. fold rec. split.
      * intros (u & [t Ht] & Hm).
        destruct (decide (t = now)) as [->|Hne].
        -- rewrite lookup_insert_eq in Ht. injection Ht as <-.
           left. f_equal. by apply (matches_chosen k a (customException st)).
        -- rewrite lookup_insert_ne in Ht by done. right. exists u. eauto.
      * intros [[= ->]|(u & [t Ht] & Hm)].
        -- exists chosen. split; [exists now; by rewrite lookup_insert_eq|].
           by apply matches_chosen.
        -- exists u. split; [|done]. exists t. rewrite lookup_insert_ne; [done|].
           intros <-. by rewrite Hfresh in Ht.
    + rewrite lookup_insert_ne by done. split; [by right|].
      intros [[= Hk' _]|H]; [by destruct Hne|done].
  - intros s t. cbn [applied].
    destruct (decide (key s = key stg)) as [Heq|Hne].
    + rewrite Heq, lookup_insert_eq. cbn [default from_option id]. fold rec.
      destruct (decide (t = now)) as [->|Hne]; [by left|].
      rewrite lookup_insert_ne by done. intros H. right. apply (H2 stg). by fold rec.
    + rewrite lookup_insert_ne by done. intros H. right. by apply (H2 s).
Qed.

Lemma inv_step st h T e :
  inv st h T -> known_drop e -> (forall t, stamp e = Some t -> t ∉ T) ->
  inv (step st e) (note st e h) (default T ((fun t => t :: T) <$> stamp e)).
Proof.
  intros Hinv Hk Hfresh. destruct e as [a now| | |v|]; cbn [note stamp fmap option_fmap option_map default].
  - destruct (STAGES !! stageIdx st) as [stg|] eqn:Hstg.
    + apply inv_drop; [done|done|by apply Hfresh|done].
    + unfold step, handle, applyAction. rewrite Hstg. by apply inv_weaken.
  - apply (inv_same_applied st); [|done].
    unfold step, handle, goNext. destruct (STAGES !! _); [|done].
    cbn [mbind option_bind]. destruct (negb _); [done|]. by case_bool_decide.
  - split.
    + intros s k _. unfold has. setoid_rewrite elem_of_used_of.
      cbn [step handle reset default from_option id applied]. rewrite lookup_empty. cbn [default from_option id].
      setoid_rewrite lookup_empty. rewrite elem_of_nil. split; [|done].
      by intros (u & [t Ht] & _).
    + intros s t. cbn [step handle reset default from_option id applied].
      rewrite lookup_empty. cbn [default from_option id]. rewrite lookup_empty. by intros [].
  - by apply (inv_same_applied st).
  - apply (inv_same_applied st); [|done].
    unfold step, handle, needHint. by destruct (STAGES !! _).
Qed.

Lemma timestamps_cons e es :
  timestamps (e :: es)
  = match stamp e with
    | Some t => t :: timestamps es
    | None => timestamps es
    end.
Proof. done. Qed.

Lemma inv_run es : forall st h T,
  inv st h T -> Forall known_drop es ->
  NoDup (timestamps es) -> (forall t, t ∈ timestamps es -> t ∉ T) ->
  exists T', inv (run st es) (history st es h) T'.
Proof.
  induction es as [|e es IH]; intros st h T Hinv Hk Hnd Hfresh; [by exists T|].
  apply Forall_cons in Hk as [Hke Hk].
  unfold run. cbn [foldl history]. fold (run (step st e) es).
  rewrite timestamps_cons in Hnd, Hfresh.
  assert (Hstep : inv (step st e) (note st e h)
                    (default T ((fun t => t :: T) <$> stamp e))).
  { apply inv_step; [done|done|]. intros t Ht. rewrite Ht in Hfresh.
    apply Hfresh. by left. }
  destruct (stamp e) as [t0|];
    cbn [fmap option_fmap option_map default from_option id] in Hstep.
  - apply NoDup_cons in Hnd as [Hnot Hnd].
    eapply IH; [exact Hstep|exact Hk|exact Hnd|].
    intros t Ht. rewrite not_elem_of_cons. split; [by intros ->|].
    apply Hfresh. by right.
  - eapply IH; [exact Hstep|exact Hk|exact Hnd|exact Hfresh].
Qed.

Lemma inv_init : inv init [] [].
Proof.
  split.
  - intros s k _. unfold has. setoid_rewrite elem_of_used_of. cbn [init applied].
    rewrite lookup_empty. cbn [default from_option id]. setoid_rewrite lookup_empty.
    rewrite elem_of_nil. split; [|done]. by intros (u & [t Ht] & _).
  - intros s t. cbn [init applied]. rewrite lookup_empty. cbn [default from_option id].
    rewrite lookup_empty. by intros [].
Qed.

Lemma expected_known s k : s ∈ STAGES -> k ∈ expectedKeys s -> is_action_id k.
Proof.
  unfold STAGES, is_action_id. rewrite !elem_of_cons, elem_of_nil.
  intros [ -> | [ -> | [ -> | [ -> | [ -> | [] ] ] ] ] ]; cbn [expectedKeys stage_kafka stage_repo
    stage_controller stage_batch stage_upstream];
    rewrite ?elem_of_cons, elem_of_nil; intros H;
    repeat (destruct H as [ -> | H ]); try done; auto.
Qed.
End StrictInvariant.

(** C4, as worded, fails when the clock shows the same time at two drops: a
    catch and then a throw, both at time 5 on the first stage, leave only the
    throw in the record, and the stage that expects both cannot be left. *)
Lemma scoreStage_same_timestamp_counterexample :
  ~ strict_claim [Strict.Dropped Strict.id_catch 5; Strict.Dropped Strict.id_throw 5]
      stage_kafka.
Proof.
  intros [_ H].
  assert (Hok : Strict.ok (Strict.scoreStage
            (Strict.run Strict.init
               [Strict.Dropped Strict.id_catch 5; Strict.Dropped Strict.id_throw 5])
            stage_kafka) = true).
  { apply H. intros k Hk.
    change (applied_kinds _)
      with [(key stage_kafka, Strict.id_throw); (key stage_kafka, Strict.id_catch)].
    change (expectedKeys stage_kafka) with [Strict.id_catch; Strict.id_throw] in Hk.
    apply elem_of_cons in Hk as [ -> | Hk ]; [right; left|].
    apply elem_of_cons in Hk as [ -> | Hk ]; [left|]. by apply elem_of_nil in Hk. }
  vm_compute in Hok. discriminate Hok.
Qed.

(** C4, amended.  In the strict engine, after any sequence of events whose
    drops carry action identifiers and pairwise distinct clock values, a stage
    of the registry can be left if and only if every action it expects is
    among the actions dropped on it since the last restart.  The custom
    exception name may be edited at any point: a throw counts as a throw with
    any name.  Other actions dropped on the stage do not matter. *)
Theorem scoreStage_expected_applied (es : list Strict.event) (s : Stage) :
  NoDup (timestamps es) -> Forall known_drop es -> s ∈ STAGES ->
  Strict.ok (Strict.scoreStage (Strict.run Strict.init es) s) = true <->
  forall k, k ∈ expectedKeys s -> (key s, k) ∈ applied_kinds es.
Proof.
  intros Hnd Hk Hs.
  destruct (inv_run es Strict.init [] [] inv_init Hk Hnd) as [T' [H1 _]].
  { intros t _. apply not_elem_of_nil. }
  rewrite ok_iff. unfold applied_kinds.
  split; intros H k Hin; apply H1 || apply (H1 s k); eauto using expected_known.
Qed.

(** A throw with the default name, a renamed field, an optional and a catch on
    the first stage. *)
Lemma scoreStage_expected_applied_witness :
  Strict.ok (Strict.scoreStage
    (Strict.run Strict.init
       [Strict.Dropped Strict.id_throw 5; Strict.NameEdited (lit "Boom");
        Strict.Dropped Strict.id_opt 6; Strict.Dropped Strict.id_catch 7])
    stage_kafka) = true.
Proof.
  apply (scoreStage_expected_applied
           [Strict.Dropped Strict.id_throw 5; Strict.NameEdited (lit "Boom");
            Strict.Dropped Strict.id_opt 6; Strict.Dropped Strict.id_catch 7] stage_kafka).
  - refine (bool_decide_unpack _ _). by vm_compute.
  - repeat (apply Forall_cons; split); try apply Forall_nil;
      unfold known_drop, is_action_id; auto.
  - left.
  - intros k Hk.
    change (applied_kinds _)
      with [(key stage_kafka, Strict.id_catch); (key stage_kafka, Strict.id_opt);
            (key stage_kafka, Strict.id_throw)].
    change (expectedKeys stage_kafka) with [Strict.id_catch; Strict.id_throw] in Hk.
    apply elem_of_cons in Hk as [ -> | Hk ]; [left|].
    apply elem_of_cons in Hk as [ -> | Hk ]; [right; right; left|].
    by apply elem_of_nil in Hk.
Defined.

Lemma lenient_next_frame s s'' :
  Lenient.next s = Some s'' ->
  Lenient.linesByStage s'' = Lenient.linesByStage s /\
  Lenient.appliedCounts s'' = Lenient.appliedCounts s.
Proof.
  unfold Lenient.next. destruct (STAGES !! _); [|done].
  cbn [mbind option_bind]. destruct (negb _); [by intros [= <-]|].
  case_bool_decide; by intros [= <-].
Qed.

(** C9.  A drop on a line of the active stage leaves the lines and the count
    of every other stage, and the stage index, as they were; moving on to the
    next stage changes no lines and no counts. *)
Theorem applyActionAt_frame (st : Lenient.state) (a : jsstring) (i j : nat)
    (stage other : Stage) :
  STAGES !! Lenient.stageIdx st = Some stage ->
  STAGES !! j = Some other -> j <> Lenient.stageIdx st ->
  let st' := Lenient.step st (Lenient.Dropped a i) in
  Lenient.linesByStage st' !! key other = Lenient.linesByStage st !! key other /\
  Lenient.appliedCounts st' !! key other = Lenient.appliedCounts st !! key other /\
  Lenient.stageIdx st' = Lenient.stageIdx st /\
  (forall st'', Lenient.next st' = Some st'' ->
     Lenient.linesByStage st'' = Lenient.linesByStage st' /\
     Lenient.appliedCounts st'' = Lenient.appliedCounts st').
Proof.
  intros Hstage Hother Hj st'.
  assert (Hkey : key stage <> key other).
  { intros Hk. apply Hj. symmetry. by eapply stage_key_inj. }
  split; [|split; [|split; [|by apply lenient_next_frame]]]; subst st';
    unfold Lenient.step, Lenient.handle, Lenient.applyActionAt;
    rewrite Hstage; cbn [mbind option_bind];
    destruct (Lenient.linesByStage st !! key stage) as [lines|]; try done;
    cbn [mbind option_bind];
    destruct (if bool_decide _ then _ else _) as [working|]; try done;
    cbn [mbind option_bind default from_option id Lenient.linesByStage
           Lenient.appliedCounts Lenient.stageIdx];
    by rewrite ?lookup_insert_ne.
Qed.

(** A catch on the first stage leaves the second stage as it was. *)
Lemma applyActionAt_frame_witness :
  Lenient.linesByStage (Lenient.step Lenient.init (Lenient.Dropped Lenient.id_catch 1))
    !! key stage_repo
  = Some (snippet stage_repo).
Proof.
  destruct (applyActionAt_frame Lenient.init Lenient.id_catch 1 1
              stage_kafka stage_repo eq_refl eq_refl ltac:(discriminate))
    as (H & _).
  rewrite H. reflexivity.
Defined.

(** C10.  In the lenient engine a drop whose identifier is none of [throw],
    [catch] and [opt] leaves the lines of every stage as they were, adds one to
    the count of the active stage and appends a log entry; the stage can then
    be left. *)
Theorem unknown_action_counts (st : Lenient.state) (stage : Stage)
    (lines : list jsstring) (a : jsstring) (i : nat) :
  STAGES !! Lenient.stageIdx st = Some stage ->
  Lenient.linesByStage st !! key stage = Some lines ->
  a <> Lenient.id_throw -> a <> Lenient.id_catch -> a <> Lenient.id_opt ->
  exists st', Lenient.applyActionAt a i st = Some st' /\
    Lenient.linesByStage st' = Lenient.linesByStage st /\
    Lenient.appliedCounts st' !! key stage
      = Some (default 0 (Lenient.appliedCounts st !! key stage) + 1) /\
    Lenient.log st'
      = Lenient.log st ++ [lit "Applied " ++ a ++ lit " to line "
                             ++ decimal (i + 1) ++ lit " in " ++ title stage] /\
    Lenient.stageIdx st' = Lenient.stageIdx st /\
    lenient_can_advance st' = true.
Proof.
  intros Hstage Hlines H1 H2 H3.
  unfold Lenient.applyActionAt. rewrite Hstage. cbn [mbind option_bind].
  rewrite Hlines. cbn [mbind option_bind].
  rewrite !bool_decide_eq_false_2 by done. cbn [mbind option_bind].
  eexists; split; [done|].
  unfold lenient_can_advance.
  cbn [Lenient.linesByStage Lenient.appliedCounts Lenient.log Lenient.stageIdx].
  rewrite Hstage, lookup_insert_eq. cbn [default from_option id].
  repeat split; try done.
  - by apply insert_id.
  - unfold Lenient.canAdvance. apply N.ltb_lt. lia.
Qed.

(** An unknown identifier dropped on the first stage. *)
Lemma unknown_action_counts_witness :
  lenient_can_advance
    (Lenient.step Lenient.init (Lenient.Dropped (lit "shrug") 0)) = true.
Proof.
  destruct (unknown_action_counts Lenient.init stage_kafka (snippet stage_kafka)
              (lit "shrug") 0 eq_refl eq_refl
              ltac:(discriminate) ltac:(discriminate) ltac:(discriminate))
    as (st' & H & _ & _ & _ & _ & Hadv).
  unfold Lenient.step. cbn [Lenient.handle]. rewrite H. exact Hadv.
Defined.

(** ** Worked examples *)

(** The first stage: a catch on the second line gives seven lines, the second
    of which opens the block; a throw on the last line of the block adds an
    eighth line; the stage can then be left. *)
Example catch_then_throw_then_next :
  let st1 := Lenient.step Lenient.init (Lenient.Dropped Lenient.id_catch 1) in
  let st2 := Lenient.step st1 (Lenient.Dropped Lenient.id_throw 5) in
  let st3 := Lenient.step st2 Lenient.NextClicked in
  (length <$> Lenient.linesByStage st1 !! key stage_kafka) = Some 7%nat /\
  (Lenient.linesByStage st1 !! key stage_kafka) ≫= (.!! 1%nat)
    = Some (lit "    try {") /\
  (length <$> Lenient.linesByStage st2 !! key stage_kafka) = Some 8%nat /\
  Lenient.stageIdx st3 = 1%nat.
Proof. by vm_compute. Qed.

(** The white space after [return] gives one character back when nothing
    else is left for the value. *)
Example optional_of_blank_value :
  applyOptionalOf [lit "  return   ;"] 0 = Some [lit "  return Optional.of( );"].
Proof. by vm_compute. Qed.

(** The value runs up to the last semicolon of the line. *)
Example optional_of_trailing_comment :
  applyOptionalOf [lit "return x; // a; b"] 0
  = Some [lit "return Optional.of(x; // a); b"].
Proof. by vm_compute. Qed.

(** [Optional.] in a comment is enough for the line not to be rewritten: the
    sample line is inserted after it. *)
Example optional_of_optional_comment :
  applyOptionalOf [lit "    return x; // not Optional.empty()"] 0
  = Some [lit "    return x; // not Optional.empty()";
          lit "        return Optional.of(<span contenteditable=" ++ dq ++ lit "true"
            ++ dq ++ lit " class=" ++ dq ++ lit "ce" ++ dq
            ++ lit ">value</span>);"].
Proof. by vm_compute. Qed.

(** The text of the line is escaped inside the block. *)
Example catch_escapes :
  applyCatch [lit "  a<b && c  "] 0 ≫= (.!! 1%nat)
  = Some (lit "      a&lt;b &amp;&amp; c").
Proof. by vm_compute. Qed.

(** An index outside the snippet: the transform throws and the state stays. *)
Example drop_outside :
  applyThrow (snippet stage_kafka) 3 = None /\
  Lenient.step Lenient.init (Lenient.Dropped Lenient.id_throw 3) = Lenient.init.
Proof. by vm_compute. Qed.

(** The strict engine on the first stage: a throw alone does not do, a catch
    after it does, and a further optional is counted as an extra. *)
Example strict_throw_then_catch :
  let st1 := Strict.step Strict.init (Strict.Dropped Strict.id_throw 1) in
  let st2 := Strict.step st1 (Strict.Dropped Strict.id_catch 2) in
  let st3 := Strict.step st2 (Strict.Dropped Strict.id_opt 3) in
  Strict.ok (Strict.scoreStage st1 stage_kafka) = false /\
  Strict.ok (Strict.scoreStage st2 stage_kafka) = true /\
  Strict.scoreStage st3 stage_kafka = Strict.Score true 3 1 /\
  Strict.stageIdx (Strict.step st3 Strict.NextClicked) = 1%nat.
Proof. by vm_compute. Qed.

(** * Further properties of the code *)

(** ** The transforms *)

Section Escape.
Lemma replaceAllChar_cons c by_ x s :
  replaceAllChar c by_ (x :: s)
  = (if x =? c then by_ else [x]) ++ replaceAllChar c by_ s.
Proof. done. Qed.

Lemma replaceAllChar_app c by_ s t :
  replaceAllChar c by_ (s ++ t) = replaceAllChar c by_ s ++ replaceAllChar c by_ t.
Proof. unfold replaceAllChar. apply flat_map_app. Qed.

Lemma esc_char_no_lt c : 60 ∉ esc_char c.
Proof.
  unfold esc_char. destruct (N.eqb_spec c 38).
  { refine (bool_decide_unpack _ _). by vm_compute. }
  destruct (N.eqb_spec c 60).
  { refine (bool_decide_unpack _ _). by vm_compute. }
  apply not_elem_of_cons. split; [done|apply not_elem_of_nil].
Qed.

Lemma esc_chars s : esc s = flat_map esc_char s.
Proof.
  unfold esc. induction s as [|x s IH]; [done|].
  rewrite replaceAllChar_cons, replaceAllChar_app, IH. cbn [flat_map].
  f_equal. unfold esc_char.
  destruct (N.eqb_spec x 38) as [->|H38]; [done|].
  rewrite replaceAllChar_cons. cbn [replaceAllChar flat_map].
  by rewrite app_nil_r.
Qed.
End Escape.

(** X1.  The two passes of [esc] are one pass over the characters: every [&]
    becomes [&amp;], every [<] becomes [&lt;], every other character stays,
    and the second pass escapes nothing that the first one wrote; so [esc]
    of two texts put together is the two escaped texts put together. *)
Theorem esc_one_pass (s t : jsstring) :
  esc s = flat_map esc_char s /\ esc (s ++ t) = esc s ++ esc t.
Proof.
  split; [apply esc_chars|]. rewrite !esc_chars. apply flat_map_app.
Qed.

(** X2.  The text that the Catch transform puts inside the block holds no
    [<]: whatever the replaced line is, its copy in the second line of the
    block cannot open a tag when the line is rendered as markup. *)
Theorem applyCatch_inner_no_lt (lines : list jsstring) (i : nat) (orig : jsstring) :
  lines !! i = Some orig ->
  exists lines' inner,
    applyCatch lines i = Some lines' /\
    lines' !! (i + 1)%nat = Some inner /\
    (60 ∉ inner).
Proof.
  intros Horig.
  assert (Hesc : forall s, 60 ∉ esc s).
  { intros s. rewrite esc_chars. induction s as [|x s IH]; cbn [flat_map].
    - apply not_elem_of_nil.
    - rewrite not_elem_of_app. split; [apply esc_char_no_lt|done]. }
  unfold applyCatch. rewrite Horig. cbn zeta.
  rewrite indent_of_take_ws. unfold splice.
  eexists _, (take_ws orig ++ lit "    " ++ esc (trim orig)).
  split; [done|]. split.
  - pose proof (lookup_lt_Some _ _ _ Horig) as Hlt.
    rewrite lookup_app_r by (rewrite length_take; lia).
    rewrite length_take.
    replace (i + 1 - i `min` length lines)%nat with 1%nat by lia.
    by rewrite <- app_assoc.
  - rewrite !not_elem_of_app. split; [|split; [|done]].
    + intros Hin. pose proof (take_ws_spaces orig) as Hs.
      apply (proj1 (Forall_forall _ _) Hs) in Hin. done.
    + refine (bool_decide_unpack _ _). by vm_compute.
Qed.

Lemma applyCatch_inner_no_lt_witness :
  exists lines' inner,
    applyCatch [lit "  a<b && c  "] 0 = Some lines' /\
    lines' !! 1%nat = Some inner /\ (60 ∉ inner).
Proof.
  destruct (applyCatch_inner_no_lt [lit "  a<b && c  "] 0 (lit "  a<b && c  ") eq_refl)
    as (lines' & inner & H1 & H2 & H3).
  exists lines', inner. split; [exact H1|]. split; [exact H2|exact H3].
Defined.

(** X3.  The expression [/^\s*/] matches every line, at its start, and what it
    matches is the leading white space: the fallback [[""]] beside it is
    never used, and a line is its indentation followed by text that does not
    start with white space. *)
Theorem indent_always_matches (line : jsstring) :
  str_match re_indent line = Some (indent_of line) /\
  exec re_indent line = Some (MR O (skip_ws line) None) /\
  line = indent_of line ++ skip_ws line /\
  spaces (indent_of line) /\
  match skip_ws line with
  | c :: _ => is_space c = false
  | [] => True
  end.
Proof.
  rewrite indent_of_take_ws. unfold str_match. rewrite exec_indent.
  split; [|split; [done|split; [by rewrite take_skip_ws|split; [apply take_ws_spaces|]]]].
  - cbn [fmap option_fmap option_map]. f_equal. unfold matched. cbn [r_index r_rest].
    rewrite Nat.sub_0_r, drop_0.
    assert (Hlen : length line = (length (take_ws line) + length (skip_ws line))%nat)
      by by rewrite <- length_app, take_skip_ws.
    replace (length line - length (skip_ws line))%nat with (length (take_ws line)) by lia.
    transitivity (take (length (take_ws line)) (take_ws line ++ skip_ws line));
      [by rewrite take_skip_ws|by rewrite take_app_length].
  - destruct (skip_ws line) eqn:E; [done|]. by eapply skip_ws_head.
Qed.

Section TransformFacts.
Lemma transform_cases a lines i :
  transform a lines i = applyThrow lines i /\ a = id_throw \/
  transform a lines i = applyCatch lines i /\ a = id_catch \/
  transform a lines i = applyOptionalOf lines i /\ a = id_opt \/
  transform a lines i = Some lines /\ a <> id_throw /\ a <> id_catch /\ a <> id_opt.
Proof.
  unfold transform. repeat case_bool_decide; auto.
  right; right; right. done.
Qed.

Lemma applyActionAt_transform a i st :
  Lenient.applyActionAt a i st
  = stage ← STAGES !! Lenient.stageIdx st;
    lines ← Lenient.linesByStage st !! key stage;
    working ← transform a lines i;
    Some (Lenient.State (Lenient.stageIdx st)
            (<[key stage := working]> (Lenient.linesByStage st))
            (<[key stage := count_of st stage + 1]> (Lenient.appliedCounts st))
            (Lenient.log st ++ [lit "Applied " ++ a ++ lit " to line "
                                  ++ decimal (i + 1) ++ lit " in " ++ title stage])).
Proof. done. Qed.

Lemma take_ws_app_text pre c x c' y :
  is_space c = false -> is_space c' = false ->
  take_ws (pre ++ c :: x) = take_ws (pre ++ c' :: y).
Proof.
  intros Hc Hc'. induction pre as [|a pre IH]; simpl.
  - by rewrite Hc, Hc'.
  - destruct (is_space a); [by rewrite IH|done].
Qed.

(** The shape of what a transform returns. *)
Lemma transform_shape a lines i lines' :
  transform a lines i = Some lines' ->
  lines' = lines \/
  (exists x, (i < length lines)%nat /\ lines' = <[i := x]> lines) \/
  (exists x, (i < length lines)%nat /\
     lines' = take (S i) lines ++ [x] ++ drop (S i) lines) \/
  (exists w, (i < length lines)%nat /\ length w = 5%nat /\
     lines' = take i lines ++ w ++ drop (S i) lines).
Proof.
  destruct (transform_cases a lines i) as [[-> _]|[[-> _]|[[-> _]|[-> _]]]].
  - unfold applyThrow. destruct (lines !! i) as [line|] eqn:E; [|done].
    apply lookup_lt_Some in E.
    destruct (test re_return_null line); intros [= <-].
    + right; left. eauto.
    + right; right; left. unfold splice. rewrite Nat.add_0_r, Nat.add_1_r. eauto.
  - unfold applyCatch. destruct (lines !! i) as [line|] eqn:E; [|done].
    apply lookup_lt_Some in E. cbn zeta. intros [= <-].
    right; right; right. unfold splice. rewrite Nat.add_1_r.
    eexists. split; [done|]. split; [|done]. done.
  - unfold applyOptionalOf. destruct (lines !! i) as [line|] eqn:E; [|done].
    apply lookup_lt_Some in E. cbn zeta.
    destruct (_ && _); intros [= <-].
    + right; left. eauto.
    + right; right; left. unfold splice. rewrite Nat.add_0_r, Nat.add_1_r. eauto.
  - intros [= <-]. by left.
Qed.
End TransformFacts.

(** X4.  A drop of one of the three actions on an index outside the snippet
    of the active stage does nothing at all: the transform throws before any
    line is written, and the handler leaves the lines, the count and the log
    as they were. *)
Theorem drop_outside_snippet (st : Lenient.state) (stage : Stage)
    (lines : list jsstring) (a : jsstring) (i : nat) :
  STAGES !! Lenient.stageIdx st = Some stage ->
  Lenient.linesByStage st !! key stage = Some lines ->
  (length lines <= i)%nat ->
  a = id_throw \/ a = id_catch \/ a = id_opt ->
  applyThrow lines i = None /\ applyCatch lines i = None /\
  applyOptionalOf lines i = None /\
  Lenient.applyActionAt a i st = None /\
  Lenient.step st (Lenient.Dropped a i) = st.
Proof.
  intros Hstage Hlines Hlen Ha.
  assert (Hnone : lines !! i = None) by by apply lookup_ge_None.
  assert (H1 : applyThrow lines i = None) by (unfold applyThrow; by rewrite Hnone).
  assert (H2 : applyCatch lines i = None) by (unfold applyCatch; by rewrite Hnone).
  assert (H3 : applyOptionalOf lines i = None)
    by (unfold applyOptionalOf; by rewrite Hnone).
  assert (H4 : Lenient.applyActionAt a i st = None).
  { rewrite applyActionAt_transform, Hstage. cbn [mbind option_bind].
    rewrite Hlines. cbn [mbind option_bind].
    destruct (transform_cases a lines i) as [[-> _]|[[-> _]|[[-> _]|[_ (?&?&?)]]]];
      [by rewrite H1|by rewrite H2|by rewrite H3|].
    by destruct Ha as [?|[?|?]]. }
  repeat split; try done.
  unfold Lenient.step. cbn [Lenient.handle]. by rewrite H4.
Qed.

Lemma drop_outside_snippet_witness :
  Lenient.step Lenient.init (Lenient.Dropped id_catch 3) = Lenient.init.
Proof.
  apply (drop_outside_snippet Lenient.init stage_kafka (snippet stage_kafka)
           id_catch 3 eq_refl eq_refl).
  - simpl. lia.
  - right; left. reflexivity.
Defined.

(** X5.  A transform touches the snippet only at the target: the lines
    before the target are kept, the lines after it are kept in their order,
    and between them the target is replaced by one line or followed by one
    new line (Throw, Optional) or replaced by the five lines of the block
    (Catch).  No transform removes a line. *)
Theorem transform_keeps_other_lines (a : jsstring) (lines lines' : list jsstring)
    (i : nat) :
  transform a lines i = Some lines' ->
  exists d, (d <= 4)%nat /\
    length lines' = (length lines + d)%nat /\
    take i lines' = take i lines /\
    drop (S i + d) lines' = drop (S i) lines.
Proof.
  intros [->|[(x & Hi & ->)|[(x & Hi & ->)|(w & Hi & Hw & ->)]]]%transform_shape.
  - exists O. rewrite !Nat.add_0_r. by split; [lia|].
  - exists O. rewrite !Nat.add_0_r, length_insert.
    split; [lia|]. split; [done|]. split.
    + by rewrite take_insert_ge.
    + by rewrite drop_insert_lt by lia.
  - exists 1%nat.
    assert (Ht : length (take (S i) lines) = S i) by (rewrite length_take; lia).
    split; [lia|]. split; [|split].
    + rewrite !length_app, Ht, length_drop. cbn [length]. lia.
    + rewrite take_app_le by lia. rewrite take_take. f_equal. lia.
    + rewrite drop_app_ge by lia. rewrite Ht.
      replace (S i + 1 - S i)%nat with 1%nat by lia. done.
  - exists 4%nat.
    assert (Ht : length (take i lines) = i) by (rewrite length_take; lia).
    split; [lia|]. split; [|split].
    + rewrite !length_app, Ht, Hw, length_drop. lia.
    + by rewrite take_app_length' by done.
    + rewrite drop_app_ge by lia. rewrite Ht.
      rewrite drop_app_ge by lia. rewrite Hw.
      replace (S i + 4 - i - 5)%nat with O by lia. done.
Qed.

Lemma transform_keeps_other_lines_witness :
  exists lines', transform id_catch (snippet stage_kafka) 1 = Some lines' /\
    take 1 lines' = take 1 (snippet stage_kafka) /\
    drop 6 lines' = drop 2 (snippet stage_kafka).
Proof.
  eexists. split; [reflexivity|].
  destruct (transform_keeps_other_lines id_catch (snippet stage_kafka) _ 1 eq_refl)
    as (d & _ & Hlen & Htake & Hdrop).
  assert (d = 4%nat) as -> by (vm_compute in Hlen; lia).
  split; [exact Htake|exact Hdrop].
Defined.

(** X6.  The Optional-return transform never wraps a value twice.  Where it
    rewrites a line, the test for a return statement and the replace with
    the grouping expression find the same match, the new line is another
    line than the old one and mentions [Optional.]; so a second drop on the
    same line leaves the rewritten line and inserts the sample line after
    it. *)
Theorem applyOptionalOf_twice (lines : list jsstring) (i : nat) (line : jsstring) :
  lines !! i = Some line ->
  test re_return_value line && negb (test re_optional line) = true ->
  exists lines1 line1,
    applyOptionalOf lines i = Some lines1 /\
    lines1 !! i = Some line1 /\
    includes (lit "return Optional.of(") line1 = true /\
    line1 <> line /\
    applyOptionalOf lines1 i
    = Some (take (S i) lines1
              ++ [take_ws line1 ++ lit "    " ++ optional_sample]
              ++ drop (S i) lines1).
Proof.
  intros Hline Hguard. pose proof (lookup_lt_Some _ _ _ Hline) as Hlt.
  pose proof Hguard as Hg.
  apply andb_true_iff in Hg as [Hval Hopt]. apply negb_true_iff in Hopt.
  change re_return_value with (erase re_return_group) in Hval.
  rewrite test_erase in Hval. unfold test in Hval.
  destruct (exec re_return_group line) as [m|] eqn:E; [|done].
  destruct (exec_return_group_sound _ _ E)
    as (ws & e & Hdec & Hcap & Hne & Hws & He & Hdots & Hidx).
  set (line1 := take (r_index m) line ++ lit "return Optional.of(" ++ e
                  ++ lit ");" ++ r_rest m).
  assert (Hrep : replace re_return_group
            [PText (lit "return Optional.of("); PGroup1; PText (lit ");")] line
          = line1).
  { unfold replace. rewrite E, Hcap. cbn [flat_map expand default].
    unfold line1. by rewrite <- !app_assoc. }
  assert (Hinc : includes (lit "return Optional.of(") line1 = true).
  { apply includes_iff. by exists (take (r_index m) line), (e ++ lit ");" ++ r_rest m). }
  assert (Hopt1 : test re_optional line1 = true).
  { unfold re_optional. rewrite test_lit_includes. apply includes_iff.
    exists (take (r_index m) line ++ lit "return "),
      (lit "of(" ++ e ++ lit ");" ++ r_rest m).
    unfold line1. by rewrite <- !app_assoc. }
  exists (<[i := line1]> lines), line1.
  split; [|split; [|split; [done|split]]].
  - unfold applyOptionalOf. rewrite Hline. cbn zeta. by rewrite Hguard, Hrep.
  - by apply list_lookup_insert_eq.
  - intros Heq. rewrite Heq in Hopt1. congruence.
  - unfold applyOptionalOf. rewrite list_lookup_insert_eq by done. cbn zeta.
    rewrite Hopt1, andb_false_r. unfold splice.
    by rewrite indent_of_take_ws, Nat.add_0_r, Nat.add_1_r, <- !app_assoc.
Qed.

Lemma applyOptionalOf_twice_witness :
  exists lines1 lines2,
    applyOptionalOf (snippet stage_controller) 2 = Some lines1 /\
    applyOptionalOf lines1 2 = Some lines2 /\
    length lines2 = 5%nat.
Proof.
  destruct (applyOptionalOf_twice (snippet stage_controller) 2
              (lit "    return ResponseEntity.ok(service.fetch(id));")
              eq_refl eq_refl)
    as (lines1 & line1 & H1 & _ & _ & _ & H2).
  exists lines1. eexists. split; [exact H1|]. split; [exact H2|].
  injection H1 as <-. reflexivity.
Defined.

(** X7.  A line that is rewritten in place keeps its indentation: the throw
    statement that replaces a return-null statement, and the wrapped return
    of the Optional transform, start where the replaced text started. *)
Theorem rewrite_keeps_indentation (lines : list jsstring) (i : nat) (line : jsstring) :
  lines !! i = Some line ->
  (test re_return_null line = true ->
     exists line', applyThrow lines i = Some (<[i := line']> lines) /\
       indent_of line' = indent_of line) /\
  (test re_return_value line && negb (test re_optional line) = true ->
     exists line', applyOptionalOf lines i = Some (<[i := line']> lines) /\
       indent_of line' = indent_of line).
Proof.
  intros Hline. split.
  - intros Htest. unfold applyThrow. rewrite Hline, Htest.
    eexists; split; [done|]. rewrite !indent_of_take_ws.
    unfold replace. unfold test in Htest.
    destruct (exec re_return_null line) as [m|] eqn:E; [|done].
    destruct (exec_return_null_sound _ _ E)
      as (stmt & ws & semi & Hdec & -> & _).
    set (pre := take (r_index m) line) in *. rewrite Hdec.
    change (flat_map (expand (r_cap m)) [PText throw_upstream])
      with (throw_upstream ++ []). rewrite app_nil_r.
    change throw_upstream with (116 :: drop 1 throw_upstream).
    change (lit "return") with (114 :: lit "eturn").
    rewrite <- !app_assoc. cbn [app]. by apply take_ws_app_text.
  - intros Hguard. unfold applyOptionalOf. rewrite Hline. cbn zeta.
    rewrite Hguard. eexists; split; [done|]. rewrite !indent_of_take_ws.
    apply andb_true_iff in Hguard as [Hval _].
    change re_return_value with (erase re_return_group) in Hval.
    rewrite test_erase in Hval. unfold test in Hval. unfold replace.
    destruct (exec re_return_group line) as [m|] eqn:E; [|done].
    destruct (exec_return_group_sound _ _ E)
      as (ws & e & Hdec & Hcap & _).
    set (pre := take (r_index m) line) in *. rewrite Hdec, Hcap. cbn [flat_map expand default].
    change (lit "return Optional.of(") with (114 :: lit "eturn Optional.of(").
    change (lit "return") with (114 :: lit "eturn").
    rewrite <- !app_assoc. cbn [app]. by apply take_ws_app_text.
Qed.

Lemma rewrite_keeps_indentation_witness :
  exists line',
    applyOptionalOf (snippet stage_controller) 2
    = Some (<[2%nat := line']> (snippet stage_controller)) /\
    indent_of line' = lit "    ".
Proof.
  destruct (rewrite_keeps_indentation (snippet stage_controller) 2
              (lit "    return ResponseEntity.ok(service.fetch(id));") eq_refl)
    as [_ H].
  destruct (H eq_refl) as (line' & H1 & H2).
  exists line'. split; [exact H1|]. rewrite H2. reflexivity.
Defined.

(** ** The lenient engine *)

Section LenientFacts.
Lemma transform_in_range a lines i :
  (i < length lines)%nat -> is_Some (transform a lines i).
Proof.
  intros [line Hline]%lookup_lt_is_Some.
  destruct (transform_cases a lines i) as [[-> _]|[[-> _]|[[-> _]|[-> _]]]];
    [unfold applyThrow|unfold applyCatch|unfold applyOptionalOf|done];
    rewrite Hline; cbn zeta.
  - by destruct (test re_return_null line).
  - done.
  - by destruct (_ && _).
Qed.

Lemma transform_length a lines i lines' :
  transform a lines i = Some lines' -> (length lines <= length lines')%nat.
Proof.
  intros [->|[(x & Hi & ->)|[(x & Hi & ->)|(w & Hi & Hw & ->)]]]%transform_shape.
  - done.
  - by rewrite length_insert.
  - rewrite !length_app, length_take, length_drop. cbn [length]. lia.
  - rewrite !length_app, length_take, length_drop. lia.
Qed.

Lemma snippets_not_empty s : s ∈ STAGES -> (0 < length (snippet s))%nat.
Proof.
  unfold STAGES. rewrite !elem_of_cons, elem_of_nil.
  intros [ -> | [ -> | [ -> | [ -> | [ -> | [] ] ] ] ] ]; simpl; lia.
Qed.

(** Every stage of the registry has its lines, and not fewer than its
    template has. *)
Lemma lenient_step_lines st e :
  (forall s, s ∈ STAGES ->
     exists lines, Lenient.linesByStage st !! key s = Some lines /\
       (length (snippet s) <= length lines)%nat) ->
  forall s, s ∈ STAGES ->
    exists lines, Lenient.linesByStage (Lenient.step st e) !! key s = Some lines /\
      (length (snippet s) <= length lines)%nat.
Proof.
  intros Hinv s Hs. destruct (Hinv s Hs) as (lines & Hlines & Hlen).
  unfold Lenient.step. destruct e as [a i| | |]; cbn [Lenient.handle].
  - rewrite applyActionAt_transform.
    destruct (STAGES !! Lenient.stageIdx st) as [stage|] eqn:Hstage; [|by eauto].
    cbn [mbind option_bind].
    destruct (Lenient.linesByStage st !! key stage) as [ls|] eqn:Hls; [|by eauto].
    cbn [mbind option_bind].
    destruct (transform a ls i) as [working|] eqn:Hw; [|by eauto].
    cbn [mbind option_bind default from_option id Lenient.linesByStage].
    destruct (decide (key stage = key s)) as [Heq|Hne].
    + rewrite Heq, lookup_insert_eq. exists working. split; [done|].
      apply transform_length in Hw. rewrite Heq, Hlines in Hls.
      injection Hls as <-. lia.
    + rewrite lookup_insert_ne by done. eauto.
  - unfold Lenient.next. destruct (STAGES !! _); [|by eauto].
    cbn [mbind option_bind]. destruct (negb _); [by eauto|].
    case_bool_decide; by eauto.
  - unfold Lenient.resetStage.
    destruct (STAGES !! Lenient.stageIdx st) as [stage|] eqn:Hstage; [|by eauto].
    cbn [mbind option_bind default from_option id Lenient.linesByStage].
    destruct (decide (key stage = key s)) as [Heq|Hne].
    + rewrite Heq, lookup_insert_eq. exists (snippet stage). split; [done|].
      apply list_elem_of_lookup in Hs as [j Hj].
      by rewrite (stage_key_inj _ _ _ _ Hstage Hj Heq) in Hstage; simplify_eq.
    + rewrite lookup_insert_ne by done. eauto.
  - cbn [default from_option id Lenient.linesByStage Lenient.resetAll].
    apply list_elem_of_lookup in Hs as [j Hj].
    exists (snippet s). split; [by eapply initial_lines_lookup|done].
Qed.

Lemma lenient_reachable_lines st :
  Lenient.reachable st ->
  forall s, s ∈ STAGES ->
    exists lines, Lenient.linesByStage st !! key s = Some lines /\
      (length (snippet s) <= length lines)%nat.
Proof.
  intros [es ->]. induction es as [|e es IH] using rev_ind.
  - intros s Hs. apply list_elem_of_lookup in Hs as [j Hj].
    exists (snippet s). split; [by eapply initial_lines_lookup|done].
  - rewrite lenient_run_snoc. by apply lenient_step_lines.
Qed.
End LenientFacts.

(** X8.  In every reachable state of the lenient engine every stage of the
    registry has its working lines, and they are never fewer than the lines
    of its template, so never empty: no transform and no reset removes a
    line, and no handler ever finds the lines of a stage missing. *)
Theorem lenient_lines_never_missing (st : Lenient.state) (s : Stage) :
  Lenient.reachable st -> s ∈ STAGES ->
  exists lines, Lenient.linesByStage st !! key s = Some lines /\
    (length (snippet s) <= length lines)%nat /\ lines <> [].
Proof.
  intros Hst Hs. destruct (lenient_reachable_lines st Hst s Hs) as (lines & H & Hlen).
  exists lines. split; [done|]. split; [done|].
  pose proof (snippets_not_empty s Hs). intros ->. simpl in Hlen. lia.
Qed.

Lemma lenient_lines_never_missing_witness :
  exists lines,
    Lenient.linesByStage
      (Lenient.run Lenient.init
         [Lenient.Dropped id_catch 1; Lenient.NextClicked; Lenient.ResetStageClicked])
      !! key stage_kafka = Some lines /\ lines <> [].
Proof.
  destruct (lenient_lines_never_missing
              (Lenient.run Lenient.init
                 [Lenient.Dropped id_catch 1; Lenient.NextClicked;
                  Lenient.ResetStageClicked]) stage_kafka)
    as (lines & H & _ & Hne).
  - eexists. reflexivity.
  - left.
  - exists lines. split; [exact H|exact Hne].
Defined.

(** X9.  In a reachable state a drop on a line that is shown, an index below
    the number of lines of the active stage, never throws, whatever is
    dropped: the lines of the stage become what the transform returns, the
    count of the stage goes up by exactly one, exactly one entry is appended
    to the log, the stage index stays, and the stage can be left. *)
Theorem drop_on_shown_line (st : Lenient.state) (a : jsstring) (i : nat) :
  Lenient.reachable st ->
  exists stage lines,
    STAGES !! Lenient.stageIdx st = Some stage /\
    Lenient.linesByStage st !! key stage = Some lines /\
    ((i < length lines)%nat ->
     exists working,
       transform a lines i = Some working /\
       Lenient.step st (Lenient.Dropped a i)
       = Lenient.State (Lenient.stageIdx st)
           (<[key stage := working]> (Lenient.linesByStage st))
           (<[key stage := count_of st stage + 1]> (Lenient.appliedCounts st))
           (Lenient.log st ++ [lit "Applied " ++ a ++ lit " to line "
                                 ++ decimal (i + 1) ++ lit " in " ++ title stage]) /\
       lenient_can_advance (Lenient.step st (Lenient.Dropped a i)) = true).
Proof.
  intros Hst. pose proof (lenient_reachable_index st Hst) as Hidx.
  destruct (lookup_lt_is_Some_2 STAGES _ Hidx) as [stage Hstage].
  destruct (lenient_reachable_lines st Hst stage) as (lines & Hlines & _).
  { apply list_elem_of_lookup. eauto. }
  exists stage, lines. split; [done|]. split; [done|].
  intros Hi. destruct (transform_in_range a lines i Hi) as [working Hw].
  exists working. split; [done|].
  assert (Hstep : Lenient.step st (Lenient.Dropped a i)
    = Lenient.State (Lenient.stageIdx st)
           (<[key stage := working]> (Lenient.linesByStage st))
           (<[key stage := count_of st stage + 1]> (Lenient.appliedCounts st))
           (Lenient.log st ++ [lit "Applied " ++ a ++ lit " to line "
                                 ++ decimal (i + 1) ++ lit " in " ++ title stage])).
  { unfold Lenient.step. cbn [Lenient.handle].
    rewrite applyActionAt_transform, Hstage. cbn [mbind option_bind].
    rewrite Hlines. cbn [mbind option_bind]. by rewrite Hw. }
  split; [done|]. rewrite Hstep. unfold lenient_can_advance.
  cbn [Lenient.stageIdx Lenient.appliedCounts]. rewrite Hstage, lookup_insert_eq.
  cbn [default from_option id]. unfold Lenient.canAdvance. apply N.ltb_lt.
  lia.
Qed.

Lemma drop_on_shown_line_witness :
  lenient_can_advance (Lenient.step Lenient.init (Lenient.Dropped id_opt 2)) = true.
Proof.
  destruct (drop_on_shown_line Lenient.init id_opt 2)
    as (stage & lines & Hstage & Hlines & H).
  - exists []. reflexivity.
  - injection Hstage as <-.
    assert (Hlen : length lines = 3%nat).
    { change (Lenient.linesByStage Lenient.init !! key stage_kafka)
        with (Some (snippet stage_kafka)) in Hlines.
      injection Hlines as <-. reflexivity. }
    destruct H as (working & _ & _ & Hadv); [rewrite Hlen; lia|exact Hadv].
Defined.

(** X10.  In the lenient engine a count only goes down by a reset of the
    stage or a restart: a drop and a click on Next never lower the count of
    any stage, so a stage that can be left stays so until it is reset. *)
Theorem lenient_count_kept (st : Lenient.state) (e : Lenient.event) (s : Stage) :
  e <> Lenient.ResetStageClicked -> e <> Lenient.RestartClicked ->
  count_of st s <= count_of (Lenient.step st e) s /\
  (Lenient.canAdvance (count_of st s) = true ->
   Lenient.canAdvance (count_of (Lenient.step st e) s) = true).
Proof.
  intros H1 H2.
  assert (Hle : count_of st s <= count_of (Lenient.step st e) s).
  { unfold Lenient.step, count_of. destruct e as [a i| | |]; cbn [Lenient.handle]; try done.
    - rewrite applyActionAt_transform. unfold count_of.
      destruct (STAGES !! _) as [stage|]; [|done]. cbn [mbind option_bind].
      destruct (Lenient.linesByStage st !! _) as [ls|]; [|done].
      cbn [mbind option_bind]. destruct (transform a ls i); [|done].
      cbn [mbind option_bind default from_option id Lenient.appliedCounts].
      destruct (decide (key stage = key s)) as [Heq|Hne].
      + rewrite Heq, lookup_insert_eq.
        destruct (Lenient.appliedCounts st !! key s); cbn [default from_option id]; lia.
      + by rewrite lookup_insert_ne by done.
    - unfold Lenient.next. destruct (STAGES !! _); [|done].
      cbn [mbind option_bind]. destruct (negb _); [done|]. by case_bool_decide. }
  split; [done|]. unfold Lenient.canAdvance. rewrite !N.ltb_lt. lia.
Qed.

Lemma lenient_count_kept_witness :
  count_of Lenient.init stage_kafka
  <= count_of (Lenient.step Lenient.init (Lenient.Dropped id_catch 1)) stage_kafka.
Proof.
  apply (lenient_count_kept Lenient.init (Lenient.Dropped id_catch 1) stage_kafka);
    discriminate.
Defined.

(** X11.  Resetting the active stage leaves the lines and the counts of all
    other stages as they were, and a click on Next right after it is
    refused: the hint of the stage is appended and nothing else changes. *)
Theorem resetStage_then_next (st : Lenient.state) (stage : Stage) :
  STAGES !! Lenient.stageIdx st = Some stage ->
  exists st',
    Lenient.resetStage st = Some st' /\
    (forall k, k <> key stage ->
       Lenient.linesByStage st' !! k = Lenient.linesByStage st !! k /\
       Lenient.appliedCounts st' !! k = Lenient.appliedCounts st !! k) /\
    Lenient.next st'
    = Some (Lenient.State (Lenient.stageIdx st') (Lenient.linesByStage st')
              (Lenient.appliedCounts st') (Lenient.log st' ++ [hint_entry stage])).
Proof.
  intros Hstage. unfold Lenient.resetStage. rewrite Hstage.
  cbn [mbind option_bind]. eexists; split; [done|]. split.
  - intros k Hk. cbn [Lenient.linesByStage Lenient.appliedCounts].
    by rewrite !lookup_insert_ne.
  - unfold Lenient.next. cbn [Lenient.stageIdx Lenient.appliedCounts].
    rewrite Hstage. cbn [mbind option_bind]. by rewrite lookup_insert_eq.
Qed.

Lemma resetStage_then_next_witness :
  Lenient.stageIdx
    (Lenient.run Lenient.init
       [Lenient.Dropped id_catch 1; Lenient.ResetStageClicked; Lenient.NextClicked])
  = O.
Proof.
  destruct (resetStage_then_next
              (Lenient.step Lenient.init (Lenient.Dropped id_catch 1))
              stage_kafka eq_refl) as (st' & Hreset & _ & Hnext).
  unfold Lenient.run. cbn [foldl].
  unfold Lenient.step at 2. cbn [Lenient.handle]. rewrite Hreset.
  cbn [default from_option id].
  unfold Lenient.step at 1. cbn [Lenient.handle]. rewrite Hnext.
  cbn [default from_option id Lenient.stageIdx].
  injection Hreset as <-. reflexivity.
Defined.

Section LogFacts.
Lemma lenient_step_log st e :
  e <> Lenient.RestartClicked ->
  Lenient.log st `prefix_of` Lenient.log (Lenient.step st e) /\
  (length (Lenient.log (Lenient.step st e)) <= S (length (Lenient.log st)))%nat.
Proof.
  intros He. unfold Lenient.step. destruct e as [a i| | |]; cbn [Lenient.handle]; [| | |done].
  - rewrite applyActionAt_transform.
    destruct (STAGES !! _) as [stage|]; [|cbn [mbind option_bind default from_option id]; split; [done|lia]]. cbn [mbind option_bind].
    destruct (Lenient.linesByStage st !! _) as [ls|]; [|cbn [mbind option_bind default from_option id]; split; [done|lia]].
    cbn [mbind option_bind]. destruct (transform a ls i); [|cbn [mbind option_bind default from_option id]; split; [done|lia]].
    cbn [mbind option_bind default from_option id Lenient.log].
    split; [by apply prefix_app_r|]. rewrite length_app. simpl. lia.
  - unfold Lenient.next. destruct (STAGES !! _); [|cbn [mbind option_bind default from_option id]; split; [done|lia]].
    cbn [mbind option_bind].
    destruct (negb _); [|case_bool_decide];
      cbn [default from_option id Lenient.log];
      (split; [by apply prefix_app_r || done|rewrite ?length_app; simpl; lia]).
  - unfold Lenient.resetStage. destruct (STAGES !! _); [|cbn [mbind option_bind default from_option id]; split; [done|lia]].
    cbn [mbind option_bind default from_option id Lenient.log].
    split; [by apply prefix_app_r|]. rewrite length_app. simpl. lia.
Qed.

Lemma strict_step_log st e :
  e <> Strict.RestartClicked ->
  Strict.log st `prefix_of` Strict.log (Strict.step st e) /\
  (length (Strict.log (Strict.step st e)) <= S (length (Strict.log st)))%nat.
Proof.
  intros He. unfold Strict.step. destruct e as [a now| | |v|]; cbn [Strict.handle]; [| |done| |].
  - unfold Strict.applyAction. destruct (STAGES !! _); [|cbn [mbind option_bind default from_option id]; split; [done|lia]].
    cbn [mbind option_bind default from_option id Strict.log].
    split; [by apply prefix_app_r|]. rewrite length_app. simpl. lia.
  - unfold Strict.goNext. destruct (STAGES !! _); [|cbn [mbind option_bind default from_option id]; split; [done|lia]].
    cbn [mbind option_bind].
    destruct (negb _); [|case_bool_decide];
      cbn [default from_option id Strict.log];
      (split; [by apply prefix_app_r || done|rewrite ?length_app; simpl; lia]).
  - cbn [Strict.setCustomException default from_option id Strict.log]. split; [done|lia].
  - unfold Strict.needHint. destruct (STAGES !! _); [|cbn [mbind option_bind default from_option id]; split; [done|lia]].
    cbn [mbind option_bind default from_option id Strict.log].
    split; [by apply prefix_app_r|]. rewrite length_app. simpl. lia.
Qed.
End LogFacts.

(** X12.  The log is append-only in both engines: along any sequence of
    events without a restart, the log at the start is a prefix of the log at
    the end, and the log grows by at most one entry per event.  A restart
    empties it. *)
Theorem log_append_only (ls : Lenient.state) (les : list Lenient.event)
    (ss : Strict.state) (ses : list Strict.event) :
  Forall (fun e => e <> Lenient.RestartClicked) les ->
  Forall (fun e => e <> Strict.RestartClicked) ses ->
  (Lenient.log ls `prefix_of` Lenient.log (Lenient.run ls les) /\
   (length (Lenient.log (Lenient.run ls les))
    <= length (Lenient.log ls) + length les)%nat /\
   Lenient.log (Lenient.step ls Lenient.RestartClicked) = []) /\
  (Strict.log ss `prefix_of` Strict.log (Strict.run ss ses) /\
   (length (Strict.log (Strict.run ss ses))
    <= length (Strict.log ss) + length ses)%nat /\
   Strict.log (Strict.step ss Strict.RestartClicked) = []).
Proof.
  intros Hl Hs. split.
  - split; [|split; [|done]].
    + induction les as [|e es IH] using rev_ind; [done|].
      apply Forall_app in Hl as [Hes He]. apply Forall_inv in He.
      rewrite lenient_run_snoc. etrans; [by apply IH|]. exact (proj1 (lenient_step_log _ e He)).
    + induction les as [|e es IH] using rev_ind; [simpl; lia|].
      apply Forall_app in Hl as [Hes He]. apply Forall_inv in He.
      rewrite lenient_run_snoc, length_app. simpl.
      pose proof (proj2 (lenient_step_log (Lenient.run ls es) e He)).
      specialize (IH Hes). lia.
  - split; [|split; [|done]].
    + induction ses as [|e es IH] using rev_ind; [done|].
      apply Forall_app in Hs as [Hes He]. apply Forall_inv in He.
      rewrite strict_run_snoc. etrans; [by apply IH|]. exact (proj1 (strict_step_log _ e He)).
    + induction ses as [|e es IH] using rev_ind; [simpl; lia|].
      apply Forall_app in Hs as [Hes He]. apply Forall_inv in He.
      rewrite strict_run_snoc, length_app. simpl.
      pose proof (proj2 (strict_step_log (Strict.run ss es) e He)).
      specialize (IH Hes). lia.
Qed.

Lemma log_append_only_witness :
  Lenient.log Lenient.init
    `prefix_of` Lenient.log (Lenient.run Lenient.init [Lenient.NextClicked]) /\
  Strict.log Strict.init
    `prefix_of` Strict.log (Strict.run Strict.init [Strict.HintClicked]).
Proof.
  destruct (log_append_only Lenient.init [Lenient.NextClicked]
              Strict.init [Strict.HintClicked])
    as [[Hl _] [Hs _]].
  - repeat constructor. discriminate.
  - repeat constructor. discriminate.
  - split; [exact Hl|exact Hs].
Defined.

(** ** The strict engine *)

Section StrictFacts.
Lemma strict_used_size st s :
  Strict.used (Strict.scoreStage st s) = size (record_of st s).
Proof.
  unfold Strict.scoreStage, Strict.used_of, record_of. cbn [Strict.used].
  by rewrite length_fmap, length_map_to_list.
Qed.

Lemma strict_step_applied st e :
  (forall a now, e <> Strict.Dropped a now) -> e <> Strict.RestartClicked ->
  Strict.applied (Strict.step st e) = Strict.applied st.
Proof.
  intros H1 H2. unfold Strict.step.
  destruct e as [a now| | |v|]; cbn [Strict.handle]; [by destruct (H1 a now)| |done|done|].
  - unfold Strict.goNext. destruct (STAGES !! _); [|done].
    cbn [mbind option_bind]. destruct (negb _); [done|]. by case_bool_decide.
  - unfold Strict.needHint. by destruct (STAGES !! _).
Qed.

Lemma strict_drop_record st a now stage s :
  STAGES !! Strict.stageIdx st = Some stage ->
  record_of (Strict.step st (Strict.Dropped a now)) s
  = if decide (key stage = key s) then
      <[now := if bool_decide (a = Strict.id_throw)
                  && negb (bool_decide (Strict.customException st = []))
               then lit "throw:" ++ Strict.customException st else a]>
        (record_of st s)
    else record_of st s.
Proof.
  intros Hstage. unfold Strict.step, record_of. cbn [Strict.handle].
  unfold Strict.applyAction. rewrite Hstage.
  cbn [mbind option_bind default from_option id Strict.applied].
  destruct (decide (key stage = key s)) as [Heq|Hne].
  - by rewrite Heq, lookup_insert_eq.
  - by rewrite lookup_insert_ne.
Qed.

Lemma drops_on_cons k k' a h :
  drops_on k ((k', a) :: h)
  = ((if bool_decide (k' = k) then 1 else 0) + drops_on k h)%nat.
Proof. unfold drops_on. cbn [List.filter fst]. by case_bool_decide. Qed.

Lemma replaceString_unfold p by_ s :
  replaceString p by_ s
  = if startsWith p s then by_ ++ drop (length p) s
    else match s with
         | [] => []
         | c :: s' => c :: replaceString p by_ s'
         end.
Proof. by destruct s. Qed.

(** The record of every stage is not larger than the number of drops on the
    stage, and as large when no clock value repeats. *)
Lemma strict_sizes es : forall st h,
  (forall s, (size (record_of st s) <= drops_on (key s) h)%nat) ->
  forall s, (size (record_of (Strict.run st es) s)
             <= drops_on (key s) (history st es h))%nat.
Proof.
  induction es as [|e es IH]; intros st h Hinv; [done|].
  unfold Strict.run. cbn [foldl history]. fold (Strict.run (Strict.step st e) es).
  apply IH. intros s. specialize (Hinv s).
  destruct e as [a now| | |v|]; cbn [note].
  - destruct (STAGES !! Strict.stageIdx st) as [stage|] eqn:Hstage.
    + rewrite (strict_drop_record _ _ _ stage) by done. rewrite drops_on_cons.
      destruct (decide (key stage = key s)) as [Heq|Hne].
      * rewrite (bool_decide_eq_true_2 (key stage = key s)) by done.
        pose proof (map_size_insert now
          (if bool_decide (a = Strict.id_throw)
              && negb (bool_decide (Strict.customException st = []))
           then lit "throw:" ++ Strict.customException st else a)
          (record_of st s)) as Hsz.
        destruct (record_of st s !! now); unfold id in Hsz; lia.
      * rewrite (bool_decide_eq_false_2 (key stage = key s)) by done. lia.
    + unfold Strict.step, Strict.handle, Strict.applyAction. by rewrite Hstage.
  - unfold record_of. by rewrite strict_step_applied.
  - unfold record_of, drops_on. cbn. rewrite lookup_empty. cbn.
    by rewrite map_size_empty.
  - unfold record_of. by rewrite strict_step_applied.
  - unfold record_of. by rewrite strict_step_applied.
Qed.

Lemma strict_sizes_distinct es : forall st h (T : list Z),
  (forall s, size (record_of st s) = drops_on (key s) h) ->
  (forall s t, is_Some (record_of st s !! t) -> t ∈ T) ->
  NoDup (timestamps es) -> (forall t, t ∈ timestamps es -> t ∉ T) ->
  forall s, size (record_of (Strict.run st es) s)
            = drops_on (key s) (history st es h).
Proof.
  induction es as [|e es IH]; intros st h T Hsize Hseen Hnd Hfresh; [done|].
  unfold Strict.run. cbn [foldl history]. fold (Strict.run (Strict.step st e) es).
  rewrite timestamps_cons in Hnd, Hfresh.
  destruct e as [a now| | |v|]; cbn [note stamp] in *.
  - apply NoDup_cons in Hnd as [Hnot Hnd].
    destruct (STAGES !! Strict.stageIdx st) as [stage|] eqn:Hstage.
    + apply (IH _ _ (now :: T)); [| |done|].
      * intros s. rewrite (strict_drop_record _ _ _ stage) by done.
        rewrite drops_on_cons.
        destruct (decide (key stage = key s)) as [Heq|Hne].
        -- rewrite (bool_decide_eq_true_2 (key stage = key s)) by done.
           rewrite map_size_insert_None; [by rewrite Hsize|].
           destruct (record_of st s !! now) eqn:E; [|done].
           exfalso. apply (Hfresh now); [by left|]. apply (Hseen s). by rewrite E.
        -- rewrite (bool_decide_eq_false_2 (key stage = key s)) by done. by rewrite Hsize.
      * intros s t. rewrite (strict_drop_record _ _ _ stage) by done.
        destruct (decide (key stage = key s)) as [Heq|Hne].
        -- destruct (decide (t = now)) as [->|Ht]; [by left|].
           rewrite lookup_insert_ne by done. intros H. right. by apply (Hseen s).
        -- intros H. right. by apply (Hseen s).
      * intros t Ht. rewrite not_elem_of_cons. split; [by intros ->|].
        apply Hfresh. by right.
    + apply (IH _ _ T); [| |done|].
      * intros s. unfold Strict.step, Strict.handle, Strict.applyAction.
        rewrite Hstage. apply Hsize.
      * intros s t. unfold Strict.step, Strict.handle, Strict.applyAction.
        rewrite Hstage. apply Hseen.
      * intros t Ht. apply Hfresh. by right.
  - apply (IH _ _ T); [| |done|done].
    + intros s. unfold record_of. rewrite strict_step_applied by done. apply Hsize.
    + intros s t. unfold record_of. rewrite strict_step_applied by done. apply Hseen.
  - apply (IH _ _ T); [| |done|done].
    + intros s. unfold record_of, drops_on. cbn. rewrite lookup_empty. cbn.
      by rewrite map_size_empty.
    + intros s t. unfold record_of. cbn. rewrite lookup_empty. cbn.
      rewrite lookup_empty. by intros [].
  - apply (IH _ _ T); [| |done|done].
    + intros s. unfold record_of. rewrite strict_step_applied by done. apply Hsize.
    + intros s t. unfold record_of. rewrite strict_step_applied by done. apply Hseen.
  - apply (IH _ _ T); [| |done|done].
    + intros s. unfold record_of. rewrite strict_step_applied by done. apply Hsize.
    + intros s t. unfold record_of. rewrite strict_step_applied by done. apply Hseen.
Qed.

Lemma record_of_init s : record_of Strict.init s = ∅.
Proof. unfold record_of. cbn. by rewrite lookup_empty. Qed.
End StrictFacts.

Section RevealFacts.
Lemma strict_step_reveal st e :
  (Strict.stageIdx st < length STAGES)%nat ->
  (Strict.showBest st = true -> Strict.stageIdx st = (length STAGES - 1)%nat) ->
  Strict.showBest (Strict.step st e) = true ->
  Strict.stageIdx (Strict.step st e) = (length STAGES - 1)%nat /\
  (Strict.showBest st = true \/
   (e = Strict.NextClicked /\ strict_can_advance st = true /\
    Strict.stageIdx st = (length STAGES - 1)%nat)).
Proof.
  intros Hidx Hinv. unfold Strict.step, strict_can_advance.
  destruct e as [a now| | |v|]; cbn [Strict.handle].
  - unfold Strict.applyAction. destruct (STAGES !! _);
      cbn [mbind option_bind default from_option id Strict.showBest Strict.stageIdx];
      intros Hs; auto.
  - unfold Strict.goNext. destruct (STAGES !! _) as [stage|];
      cbn [mbind option_bind default from_option id]; [|intros Hs; auto].
    destruct (Strict.ok _); cbn [negb];
      [|cbn [default from_option id Strict.showBest Strict.stageIdx]; intros Hs; auto].
    case_bool_decide as Hlast;
      cbn [default from_option id Strict.showBest Strict.stageIdx]; intros Hs.
    + specialize (Hinv Hs). lia.
    + assert (Strict.stageIdx st = (length STAGES - 1)%nat) by lia.
      split; [done|]. right. done.
  - done.
  - cbn [Strict.setCustomException default from_option id Strict.showBest Strict.stageIdx].
    intros Hs; auto.
  - unfold Strict.needHint. destruct (STAGES !! _);
      cbn [mbind option_bind default from_option id Strict.showBest Strict.stageIdx];
      intros Hs; auto.
Qed.

Lemma strict_reachable_reveal st :
  Strict.reachable st ->
  Strict.showBest st = true -> Strict.stageIdx st = (length STAGES - 1)%nat.
Proof.
  intros [es ->]. induction es as [|e es IH] using rev_ind; [done|].
  rewrite strict_run_snoc. intros Hs.
  apply strict_step_reveal in Hs as [H _]; [done| |done].
  apply strict_reachable_index. by exists es.
Qed.

Lemma strict_reveal_stays st e :
  e <> Strict.RestartClicked -> Strict.showBest st = true ->
  Strict.showBest (Strict.step st e) = true.
Proof.
  intros He Hs. unfold Strict.step.
  destruct e as [a now| | |v|]; cbn [Strict.handle]; [| |done|done|].
  - unfold Strict.applyAction. by destruct (STAGES !! _).
  - unfold Strict.goNext. destruct (STAGES !! _); [|done].
    cbn [mbind option_bind]. destruct (negb _); [done|]. by case_bool_decide.
  - unfold Strict.needHint. by destruct (STAGES !! _).
Qed.
End RevealFacts.

(** X13.  In the strict engine the reference solution is revealed only at the
    end.  In every reachable state a raised flag means that the last stage is
    the active one; the only step that raises the flag is a click on Next on
    the last stage while that stage can be left; and once raised the flag
    stays so under every event but a restart. *)
Theorem reveal_only_at_end (st : Strict.state) (e : Strict.event) :
  Strict.reachable st ->
  (Strict.showBest st = true ->
     Strict.stageIdx st = (length STAGES - 1)%nat) /\
  (Strict.showBest st = false -> Strict.showBest (Strict.step st e) = true ->
     e = Strict.NextClicked /\ strict_can_advance st = true /\
     Strict.stageIdx st = (length STAGES - 1)%nat) /\
  (Strict.showBest st = true -> e <> Strict.RestartClicked ->
     Strict.showBest (Strict.step st e) = true).
Proof.
  intros Hst. split; [by apply strict_reachable_reveal|]. split.
  - intros Hoff Hon. apply strict_step_reveal in Hon as [_ [Hs|H]]; [congruence|done| |].
    + by apply strict_reachable_index.
    + by apply strict_reachable_reveal.
  - intros Hon He. by apply strict_reveal_stays.
Qed.

Lemma reveal_only_at_end_witness :
  Strict.showBest
    (Strict.run Strict.init
       [Strict.Dropped Strict.id_catch 1; Strict.Dropped Strict.id_throw 2;
        Strict.NextClicked;
        Strict.Dropped Strict.id_opt 3; Strict.Dropped Strict.id_throw 4;
        Strict.NextClicked;
        Strict.Dropped Strict.id_catch 5; Strict.Dropped Strict.id_throw 6;
        Strict.NextClicked;
        Strict.Dropped Strict.id_catch 7; Strict.NextClicked;
        Strict.Dropped Strict.id_catch 8; Strict.Dropped Strict.id_throw 9;
        Strict.NextClicked]) = true /\
  Strict.stageIdx
    (Strict.run Strict.init
       [Strict.Dropped Strict.id_catch 1; Strict.Dropped Strict.id_throw 2;
        Strict.NextClicked;
        Strict.Dropped Strict.id_opt 3; Strict.Dropped Strict.id_throw 4;
        Strict.NextClicked;
        Strict.Dropped Strict.id_catch 5; Strict.Dropped Strict.id_throw 6;
        Strict.NextClicked;
        Strict.Dropped Strict.id_catch 7; Strict.NextClicked;
        Strict.Dropped Strict.id_catch 8; Strict.Dropped Strict.id_throw 9;
        Strict.NextClicked]) = 4%nat.
Proof.
  split; [by vm_compute|].
  refine (proj1 (reveal_only_at_end _ Strict.HintClicked _) _).
  - by eexists.
  - by vm_compute.
Defined.

(** X14.  A stage without a record, or with an empty one, scores nothing
    used and nothing extra, and it can be left only if it expects nothing:
    no stage of the registry can be left before an action is dropped on it,
    neither at the start nor after a restart. *)
Theorem scoreStage_empty_record (st : Strict.state) (s : Stage) :
  record_of st s = ∅ ->
  Strict.scoreStage st s
  = Strict.Score (bool_decide (expectedKeys s = [])) 0 0 /\
  (s ∈ STAGES -> Strict.ok (Strict.scoreStage st s) = false) /\
  record_of Strict.init s = ∅ /\
  record_of (Strict.step st Strict.RestartClicked) s = ∅.
Proof.
  intros Hrec.
  assert (Hscore : Strict.scoreStage st s
            = Strict.Score (bool_decide (expectedKeys s = [])) 0 0).
  { unfold Strict.scoreStage, Strict.used_of. fold (record_of st s).
    rewrite Hrec, map_to_list_empty. cbn [fmap list_fmap length List.filter existsb].
    f_equal. by destruct (expectedKeys s). }
  split; [done|]. split; [|split].
  - rewrite Hscore. cbn [Strict.ok]. unfold STAGES.
    rewrite !elem_of_cons, elem_of_nil.
    by intros [ -> | [ -> | [ -> | [ -> | [ -> | [] ] ] ] ] ].
  - apply record_of_init.
  - unfold record_of. cbn. by rewrite lookup_empty.
Qed.

Lemma scoreStage_empty_record_witness :
  Strict.ok (Strict.scoreStage Strict.init stage_batch) = false.
Proof.
  destruct (scoreStage_empty_record Strict.init stage_batch) as (_ & H & _).
  - apply record_of_init.
  - apply H. do 3 right. left.
Defined.

(** X15.  A drop in the strict engine writes one entry, at the clock value of
    the drop, into the record of the active stage: the entry is the text
    [throw:] followed by the custom name when a throw is dropped while the
    name is not empty, and the dropped identifier otherwise; every other
    entry of that record is kept, and the records and scores of the other
    stages, the stage index, the custom name and the reveal flag are as
    before. *)
Theorem applyAction_frame (st : Strict.state) (a : jsstring) (now : Z)
    (stage other : Stage) (j : nat) :
  STAGES !! Strict.stageIdx st = Some stage ->
  STAGES !! j = Some other -> j <> Strict.stageIdx st ->
  let st' := Strict.step st (Strict.Dropped a now) in
  record_of st' stage !! now
  = Some (if bool_decide (a = Strict.id_throw)
             && negb (bool_decide (Strict.customException st = []))
          then lit "throw:" ++ Strict.customException st else a) /\
  (a = Strict.id_throw -> Strict.customException st <> [] ->
   record_of st' stage !! now = Some (lit "throw:" ++ Strict.customException st)) /\
  (a <> Strict.id_throw \/ Strict.customException st = [] ->
   record_of st' stage !! now = Some a) /\
  (forall t, t <> now -> record_of st' stage !! t = record_of st stage !! t) /\
  record_of st' other = record_of st other /\
  Strict.scoreStage st' other = Strict.scoreStage st other /\
  Strict.stageIdx st' = Strict.stageIdx st /\
  Strict.customException st' = Strict.customException st /\
  Strict.showBest st' = Strict.showBest st.
Proof.
  intros Hstage Hother Hj st'.
  assert (Hkey : key stage <> key other).
  { intros Hk. apply Hj. symmetry. by eapply stage_key_inj. }
  assert (Hrec : record_of st' other = record_of st other).
  { unfold st'. rewrite (strict_drop_record _ _ _ stage) by done.
    by rewrite decide_False. }
  assert (Hnew : record_of st' stage !! now
            = Some (if bool_decide (a = Strict.id_throw)
                       && negb (bool_decide (Strict.customException st = []))
                    then lit "throw:" ++ Strict.customException st else a)).
  { unfold st'. rewrite (strict_drop_record _ _ _ stage) by done.
    rewrite decide_True by done. by rewrite lookup_insert_eq. }
  split; [done|]. split; [|split; [|split; [|split; [done|split; [|split; [|split]]]]]].
  - intros Ha Hname. rewrite Hnew.
    rewrite (bool_decide_eq_true_2 (a = Strict.id_throw)) by done.
    by rewrite (bool_decide_eq_false_2 (Strict.customException st = [])) by done.
  - intros [Ha|Hname]; rewrite Hnew.
    + by rewrite (bool_decide_eq_false_2 (a = Strict.id_throw)) by done.
    + rewrite (bool_decide_eq_true_2 (Strict.customException st = [])) by done.
      by rewrite andb_false_r.
  - intros t Ht. unfold st'. rewrite (strict_drop_record _ _ _ stage) by done.
    rewrite decide_True by done. by rewrite lookup_insert_ne.
  - unfold Strict.scoreStage, Strict.used_of. fold (record_of st' other).
    fold (record_of st other). by rewrite Hrec.
  - unfold st', Strict.step, Strict.handle, Strict.applyAction. by rewrite Hstage.
  - unfold st', Strict.step, Strict.handle, Strict.applyAction. by rewrite Hstage.
  - unfold st', Strict.step, Strict.handle, Strict.applyAction. by rewrite Hstage.
Qed.

Lemma applyAction_frame_witness :
  record_of (Strict.step Strict.init (Strict.Dropped Strict.id_throw 7)) stage_kafka
    !! 7%Z = Some (lit "throw:UpstreamUnavailableException") /\
  Strict.scoreStage (Strict.step Strict.init (Strict.Dropped Strict.id_throw 7)) stage_repo
  = Strict.scoreStage Strict.init stage_repo.
Proof.
  destruct (applyAction_frame Strict.init Strict.id_throw 7 stage_kafka stage_repo 1
              eq_refl eq_refl ltac:(discriminate)) as (_ & Hnew & _ & _ & _ & H & _).
  split; [|exact H].
  apply Hnew; [reflexivity|discriminate].
Defined.

(** X16.  The number that [scoreStage] reports as used never exceeds the
    number of drops on the stage since the last restart, whatever is dropped
    and whatever the clock says. *)
Theorem used_at_most_drops (es : list Strict.event) (s : Stage) :
  (Strict.used (Strict.scoreStage (Strict.run Strict.init es) s)
   <= drops_on (key s) (applied_kinds es))%nat.
Proof.
  rewrite strict_used_size. unfold applied_kinds. apply strict_sizes.
  intros s'. by rewrite record_of_init, map_size_empty.
Qed.

(** X17.  When no two drops happen at the same clock value, the number that
    [scoreStage] reports as used is exactly the number of drops on the stage
    since the last restart: every drop is counted, whatever was dropped. *)
Theorem used_counts_drops (es : list Strict.event) (s : Stage) :
  NoDup (timestamps es) ->
  Strict.used (Strict.scoreStage (Strict.run Strict.init es) s)
  = drops_on (key s) (applied_kinds es).
Proof.
  intros Hnd. rewrite strict_used_size. unfold applied_kinds.
  apply (strict_sizes_distinct es Strict.init [] []); [| |done|].
  - intros s'. by rewrite record_of_init, map_size_empty.
  - intros s' t. rewrite record_of_init, lookup_empty. by intros [].
  - intros t _. apply not_elem_of_nil.
Qed.

Lemma used_counts_drops_witness :
  Strict.used (Strict.scoreStage
    (Strict.run Strict.init
       [Strict.Dropped Strict.id_throw 5; Strict.Dropped (lit "anything") 6]) stage_kafka)
  = 2%nat.
Proof.
  rewrite (used_counts_drops
             [Strict.Dropped Strict.id_throw 5; Strict.Dropped (lit "anything") 6]
             stage_kafka).
  - reflexivity.
  - refine (bool_decide_unpack _ _). by vm_compute.
Defined.

(** X18.  What the list of applied actions shows for a drop is the label that
    the log gives it: the identifier for a catch or an optional, and
    [Throw(<name>)] for a throw with a custom name.  The two differ for a
    throw while the name field is empty: the record holds [throw], the list
    shows [throw], and the log says [Throw()]. *)
Theorem shown_matches_log (st : Strict.state) (a : jsstring) (now : Z) (stage : Stage) :
  STAGES !! Strict.stageIdx st = Some stage ->
  is_action_id a ->
  exists st' u,
    Strict.applyAction a now st = Some st' /\
    record_of st' stage !! now = Some u /\
    Strict.log st'
    = Strict.log st ++ [lit "Applied " ++ logged_label a (Strict.customException st)
                          ++ lit " to " ++ title stage] /\
    if bool_decide (a = Strict.id_throw /\ Strict.customException st = []) then
      Strict.shown u = lit "throw" /\
      logged_label a (Strict.customException st) = lit "Throw()"
    else Strict.shown u = logged_label a (Strict.customException st).
Proof.
  intros Hstage Ha. unfold Strict.applyAction. rewrite Hstage.
  cbn [mbind option_bind]. eexists _, _. split; [done|].
  unfold record_of. cbn [Strict.applied Strict.log].
  rewrite !lookup_insert_eq. cbn [default from_option id].
  rewrite lookup_insert_eq.
  split; [reflexivity|]. split; [reflexivity|]. unfold logged_label.
  destruct Ha as [ -> | [ -> | -> ] ].
  - rewrite !(bool_decide_eq_true_2 (Strict.id_throw = Strict.id_throw)) by done.
    cbn [andb]. destruct (Strict.customException st) as [|c ce] eqn:Hce.
    + rewrite bool_decide_eq_true_2 by done. by vm_compute.
    + rewrite bool_decide_eq_false_2 by (by intros [_ ?]).
      rewrite (bool_decide_eq_false_2 (c :: ce = [])) by done. cbn [negb].
      unfold Strict.shown. rewrite startsWith_app, replaceString_unfold.
      by rewrite startsWith_app, drop_app_length.
  - rewrite bool_decide_eq_false_2 by (by intros [? _]).
    rewrite !(bool_decide_eq_false_2 (Strict.id_catch = Strict.id_throw)) by done.
    done.
  - rewrite bool_decide_eq_false_2 by (by intros [? _]).
    rewrite !(bool_decide_eq_false_2 (Strict.id_opt = Strict.id_throw)) by done.
    done.
Qed.

Lemma shown_matches_log_witness :
  exists st' u,
    Strict.applyAction Strict.id_throw 9 Strict.init = Some st' /\
    record_of st' stage_kafka !! 9%Z = Some u /\
    Strict.shown u = lit "Throw(UpstreamUnavailableException)".
Proof.
  destruct (shown_matches_log Strict.init Strict.id_throw 9 stage_kafka eq_refl)
    as (st' & u & H1 & H2 & _ & H3).
  - left. reflexivity.
  - exists st', u. split; [exact H1|]. split; [exact H2|].
    rewrite bool_decide_eq_false_2 in H3 by (intros [_ ?]; discriminate).
    rewrite H3. reflexivity.
Defined.

(** ** What the tests of the transforms accept *)

(** X19.  The test of the Throw transform accepts exactly the lines that
    hold the word [return], some white space and the letters [null], whatever
    comes before and after: there is no word boundary, so a line that returns
    [nullable] is accepted too. *)
Theorem return_null_test_iff (line : jsstring) :
  test re_return_null line = true <->
  exists pre ws post,
    line = pre ++ lit "return" ++ ws ++ lit "null" ++ post /\
    ws <> [] /\ spaces ws.
Proof.
  rewrite (test_true_iff match_here_return_null). split.
  - intros (j & Hj & [[rest cap] H]).
    apply return_null_here_sound in H as (_ & ws & semi & Hs & Hne & Hws & _).
    exists (take j line), ws, (semi ++ rest). split; [|done].
    by rewrite <- Hs, take_drop.
  - intros (pre & ws & post & -> & Hne & Hws). exists (length pre). split.
    + rewrite length_app. lia.
    + rewrite drop_app_length. by apply return_null_here_complete.
Qed.

Lemma return_null_test_iff_witness :
  test re_return_null (lit "  return nullable;") = true.
Proof.
  apply (return_null_test_iff (lit "  return nullable;")).
  exists (lit "  "), (lit " "), (lit "able;").
  split; [reflexivity|]. split; [discriminate|]. repeat constructor.
Defined.

(** X20.  The Optional-return transform rewrites exactly the lines that hold
    the word [return], some white space, at least one more character of the
    same line and a semicolon after it, and that do not hold [Optional.]
    anywhere, be it in a comment. *)
Theorem optional_guard_iff (line : jsstring) :
  test re_return_value line && negb (test re_optional line) = true <->
  (exists pre ws e post,
     line = pre ++ lit "return" ++ ws ++ e ++ lit ";" ++ post /\
     ws <> [] /\ spaces ws /\ e <> [] /\ dots e) /\
  ~ (exists a b, line = a ++ lit "Optional." ++ b).
Proof.
  rewrite andb_true_iff, negb_true_iff. unfold re_optional at 1.
  rewrite test_lit_includes, <- not_true_iff_false, includes_iff.
  apply and_iff_compat_r.
  rewrite (test_true_iff return_value_bol). split.
  - intros (j & Hj & Hm).
    pose proof (match_here_erase re_return_group true (drop j line)) as Herase.
    change (erase re_return_group) with re_return_value in Herase.
    destruct Hm as [p Hp]. rewrite Hp in Herase.
    destruct (match_here re_return_group true (drop j line)) as [[rest cap]|] eqn:E;
      [|done].
    apply match_here_return_group_sound in E
      as (ws & e & Hs & _ & Hne & Hws & He & Hdots).
    exists (take j line), ws, e, rest. split; [|done].
    by rewrite <- Hs, take_drop.
  - intros (pre & ws & e & post & -> & Hne & Hws & He & Hdots).
    exists (length pre). split.
    + rewrite length_app. lia.
    + rewrite drop_app_length. by apply match_here_return_value_complete.
Qed.

Lemma optional_guard_iff_witness :
  test re_return_value (lit "return x; // Optional.empty") = true /\
  test re_return_value (lit "return x; // Optional.empty")
    && negb (test re_optional (lit "return x; // Optional.empty")) = false.
Proof.
  split; [reflexivity|].
  apply not_true_iff_false. intros H.
  apply (optional_guard_iff (lit "return x; // Optional.empty")) in H as [_ H].
  apply H. exists (lit "return x; // "), (lit "empty"). reflexivity.
Defined.

(** ** How drops compose *)

Section ThrowTimes.
Lemma occurrences_zero line :
  occurrences re_return_null line = O -> test re_return_null line = false.
Proof.
  rewrite occurrences_unfold. unfold test.
  by destruct (exec re_return_null line).
Qed.

Lemma applyThrow_replace_step lines i line n :
  lines !! i = Some line -> occurrences re_return_null line = S n ->
  exists line1, applyThrow lines i = Some (<[i := line1]> lines) /\
    occurrences re_return_null line1 = n.
Proof.
  intros Hline Hocc. rewrite occurrences_unfold in Hocc.
  destruct (exec re_return_null line) as [m|] eqn:E; [|done].
  pose proof (occurrences_match _ _ E) as Hm.
  rewrite occurrences_unfold, E in Hm.
  destruct (exec_return_null_sound _ _ E)
    as (stmt & ws & semi & Hdec & -> & _ & _ & _ & Hidx & _ & Hbefore & _).
  exists (take (r_index m) line ++ throw_upstream ++ r_rest m). split.
  - unfold applyThrow. rewrite Hline. unfold test, replace. rewrite E.
    change (flat_map (expand (r_cap m)) [PText throw_upstream])
      with (throw_upstream ++ []). by rewrite app_nil_r.
  - rewrite (occurrences_after_replace _
               ((lit "return" ++ ws ++ lit "null" ++ semi) ++ r_rest m)).
    + lia.
    + intros j Hj. rewrite <- Hdec. apply Hbefore.
      rewrite length_take in Hj. lia.
Qed.
End ThrowTimes.

(** X21.  A line with [n] return-null statements takes [n] drops of Throw to
    clear: each drop replaces one statement and keeps the number of lines and
    all other lines, after the [n]th the line matches no more, and the next
    drop inserts a throw line instead. *)
Theorem applyThrow_until_clear (lines : list jsstring) (i : nat) (line : jsstring) :
  lines !! i = Some line ->
  exists lines' line',
    applyThrow_times (occurrences re_return_null line) lines i = Some lines' /\
    lines' = <[i := line']> lines /\
    occurrences re_return_null line' = O /\
    test re_return_null line' = false /\
    applyThrow lines' i
    = Some (take (S i) lines'
              ++ [take_ws line' ++ lit "    " ++ throw_custom]
              ++ drop (S i) lines').
Proof.
  remember (occurrences re_return_null line) as n eqn:Hn.
  revert lines line Hn. induction n as [|n IH]; intros lines line Hn Hline.
  - symmetry in Hn. pose proof (occurrences_zero _ Hn) as Htest.
    exists lines, line. split; [done|]. split; [by rewrite list_insert_id|].
    split; [done|]. split; [done|].
    unfold applyThrow. rewrite Hline, Htest. unfold splice.
    by rewrite indent_of_take_ws, Nat.add_0_r, Nat.add_1_r, <- !app_assoc.
  - symmetry in Hn.
    destruct (applyThrow_replace_step lines i line n Hline Hn) as (line1 & Happ & Hocc).
    pose proof (lookup_lt_Some _ _ _ Hline) as Hlt.
    destruct (IH (<[i := line1]> lines) line1 (eq_sym Hocc))
      as (lines' & line' & Htimes & -> & H0 & Htest & Hins).
    { by apply list_lookup_insert_eq. }
    exists (<[i := line']> lines), line'.
    rewrite list_insert_insert_eq in Htimes, Hins.
    split; [|done]. cbn [applyThrow_times]. rewrite Happ. exact Htimes.
Qed.

Lemma applyThrow_until_clear_witness :
  exists lines',
    applyThrow_times 2 [lit "return null; return null;"] 0 = Some lines' /\
    length lines' = 1%nat.
Proof.
  destruct (applyThrow_until_clear [lit "return null; return null;"] 0
              (lit "return null; return null;") eq_refl)
    as (lines' & line' & H & -> & _).
  eexists. split; [exact H|reflexivity].
Defined.

Section DropThenNext.
Lemma lenient_drop_in_range st stage lines a i :
  STAGES !! Lenient.stageIdx st = Some stage ->
  Lenient.linesByStage st !! key stage = Some lines ->
  (i < length lines)%nat ->
  exists working,
    transform a lines i = Some working /\
    Lenient.step st (Lenient.Dropped a i)
    = Lenient.State (Lenient.stageIdx st)
        (<[key stage := working]> (Lenient.linesByStage st))
        (<[key stage := count_of st stage + 1]> (Lenient.appliedCounts st))
        (Lenient.log st ++ [lit "Applied " ++ a ++ lit " to line "
                              ++ decimal (i + 1) ++ lit " in " ++ title stage]).
Proof.
  intros Hstage Hlines Hi.
  destruct (transform_in_range a lines i Hi) as [working Hw].
  exists working. split; [done|].
  unfold Lenient.step. cbn [Lenient.handle].
  rewrite applyActionAt_transform, Hstage. cbn [mbind option_bind].
  rewrite Hlines. cbn [mbind option_bind]. by rewrite Hw.
Qed.
End DropThenNext.

(** X22.  In every reachable state of the lenient engine, one drop on the
    first line of the active stage, of any action or of anything else,
    followed by a click on Next moves to the next stage; on the last stage it
    stays there and the completion message ends the log. *)
Theorem drop_then_next (st : Lenient.state) (a : jsstring) :
  Lenient.reachable st ->
  let st2 := Lenient.step (Lenient.step st (Lenient.Dropped a 0)) Lenient.NextClicked in
  if bool_decide (Lenient.stageIdx st < length STAGES - 1)%nat then
    Lenient.stageIdx st2 = S (Lenient.stageIdx st)
  else
    Lenient.stageIdx st2 = Lenient.stageIdx st /\
    last (Lenient.log st2) = Some Lenient.completion_message.
Proof.
  intros Hst. pose proof (lenient_reachable_index st Hst) as Hidx.
  destruct (lookup_lt_is_Some_2 STAGES _ Hidx) as [stage Hstage].
  assert (Hin : stage ∈ STAGES) by (apply list_elem_of_lookup; eauto).
  destruct (lenient_reachable_lines st Hst stage Hin) as (lines & Hlines & Hlen).
  pose proof (snippets_not_empty stage Hin) as Hpos.
  destruct (lenient_drop_in_range st stage lines a 0 Hstage Hlines ltac:(lia))
    as (working & _ & ->).
  cbn zeta. unfold Lenient.step. cbn [Lenient.handle].
  unfold Lenient.next. cbn [Lenient.stageIdx Lenient.appliedCounts Lenient.log
    Lenient.linesByStage].
  rewrite Hstage. cbn [mbind option_bind]. rewrite lookup_insert_eq.
  cbn [default from_option id].
  assert (Hc : Lenient.canAdvance (count_of st stage + 1) = true).
  { unfold Lenient.canAdvance. apply N.ltb_lt. lia. }
  rewrite Hc. cbn [negb].
  case_bool_decide; cbn [default from_option id Lenient.stageIdx Lenient.log].
  - lia.
  - split; [done|]. by rewrite last_snoc.
Qed.

Lemma drop_then_next_witness :
  Lenient.stageIdx
    (Lenient.step (Lenient.step Lenient.init (Lenient.Dropped (lit "whatever") 0))
       Lenient.NextClicked) = 1%nat.
Proof.
  pose proof (drop_then_next Lenient.init (lit "whatever")) as H.
  cbn zeta in H. rewrite bool_decide_eq_true_2 in H by (simpl; lia).
  apply H. exists []. reflexivity.
Defined.
